(** * COVID-19 Global Data Tracker: the metrics pipeline

    A shallow embedding of the data pipeline of [covid19_global_tracker.ipynb]:
    ingestion with a local fallback, scoping to the countries of interest,
    completeness filtering ([dropna]), metric derivation ([death_rate], the
    per-million columns), the 7-day rolling average and the latest row per
    country.

    Numbers are IEEE-754 binary64 values, as pandas holds them in a [float64]
    column; a missing value ("null") is the not-a-number value. *)

From Stdlib Require Import ZArith Bool String SpecFloat.
From stdpp Require Import base option list strings gmap sorting pretty.

Local Open Scope Z_scope.

(** ** Binary64 arithmetic *)

Module Float64.

Definition prec : Z := 53.
Definition emax : Z := 1024.

Definition float64 : Type := spec_float.

Definition nan : float64 := S754_nan.
Definition inf : float64 := S754_infinity false.
Definition zero : float64 := S754_zero false.

(** The binary64 value nearest to an integer ([float(z)] in Python). *)
Definition of_Z (z : Z) : float64 := binary_normalize prec emax z 0 false.

Definition add : float64 -> float64 -> float64 := SFadd prec emax.
Definition sub : float64 -> float64 -> float64 := SFsub prec emax.
Definition mul : float64 -> float64 -> float64 := SFmul prec emax.
Definition div : float64 -> float64 -> float64 := SFdiv prec emax.
Definition opp : float64 -> float64 := SFopp.

(** [x == y] and [x < y] on floats: false when a side is not a number, and
    the two zeros are equal. *)
Definition float_eq (x y : float64) : bool := SFeqb x y.
Definition float_lt (x y : float64) : bool := SFltb x y.

(** The sign bit, as C's [signbit] reads it from a number. *)
Definition signbit (x : float64) : bool :=
  match x with
  | S754_zero s | S754_infinity s | S754_finite s _ _ => s
  | S754_nan => false
  end.

(** The integer part of a finite float, rounded down in magnitude; [0] for
    the other floats. *)
Definition to_Z (x : float64) : Z :=
  match x with
  | S754_finite s m e => cond_Zopp s (Z.shiftl (Zpos m) e)
  | _ => 0
  end.

(** [pd.isnull] on a float cell. *)
Definition isnull (x : float64) : bool :=
  match x with S754_nan => true | _ => false end.

Definition notnull (x : float64) : bool := negb (isnull x).

(** [x == 0] on floats: both signed zeros compare equal to 0. *)
Definition is_zero (x : float64) : bool :=
  match x with S754_zero _ => true | _ => false end.

(** [np.isinf]. *)
Definition is_inf (x : float64) : bool :=
  match x with S754_infinity _ => true | _ => false end.

(** [x / y * k], the shape of every derived ratio. *)
Definition ratio (x y : float64) (k : Z) : float64 := mul (div x y) (of_Z k).

(** The operands on which a quotient is not a number. *)
Definition undefined_quotient (x y : float64) : bool :=
  isnull x || isnull y || (is_zero x && is_zero y) || (is_inf x && is_inf y).

#[export] Instance float64_eq_dec : EqDecision float64.
Proof. unfold float64. solve_decision. Defined.

End Float64.

Export Float64.

(** ** Python exceptions and results *)

(** The exceptions the pipeline can meet. [KeyError] carries the missing
    column labels; [NameError] the unbound variable. *)
Inductive exn : Type :=
  | KeyError (keys : list string)
  | NameError (name : string).

Inductive result (A : Type) : Type :=
  | Ok (a : A)
  | Raise (e : exn).
Arguments Ok {A} a.
Arguments Raise {A} e.

#[export] Instance result_ret : MRet result := fun A a => Ok a.
#[export] Instance result_bind : MBind result := fun A B f m =>
  match m with Ok a => f a | Raise e => Raise e end.
#[export] Instance result_fmap : FMap result := fun A B f m =>
  match m with Ok a => Ok (f a) | Raise e => Raise e end.

(** ** The observation table *)

(** One observation. [location] and [date] are the identifier columns every
    table of the pipeline has; [date] is a timestamp after [pd.to_datetime],
    [None] standing for [NaT]. [cells] holds the measure columns
    ([total_cases], [new_cases], [population], ...). *)
Record Row : Type := mkRow {
  location : string;
  date : option Z;
  cells : gmap string float64
}.

(** A data frame: the labels of its measure columns, in order, and its rows
    in index order. *)
Record DataFrame : Type := mkDataFrame {
  columns : list string;
  rows : list Row
}.

Definition Series : Type := list float64.

(** The value of column [c] in row [r]; a cell never written is null. *)
Definition cell (c : string) (r : Row) : float64 := default nan (cells r !! c).

Definition set_cell (c : string) (v : float64) (r : Row) : Row :=
  {| location := location r; date := date r; cells := <[c := v]> (cells r) |}.

(** [df[c]] *)
Definition getitem (c : string) (df : DataFrame) : result Series :=
  if decide (c ∈ columns df) then Ok (cell c <$> rows df) else Raise (KeyError [c]).

(** The labels after an assignment to column [c]: a new label goes last. *)
Definition add_label (c : string) (cols : list string) : list string :=
  if decide (c ∈ cols) then cols else cols ++ [c].

(** [df[c] = s]: overwrites the column, or appends a new one. *)
Definition setitem (c : string) (s : Series) (df : DataFrame) : DataFrame :=
  {| columns := add_label c (columns df);
     rows := zip_with (set_cell c) s (rows df) |}.

(** [a / b] and [a * k] on series of one index. *)
Definition sdiv (a b : Series) : Series := zip_with div a b.
Definition smul (a : Series) (k : Z) : Series := (fun x => mul x (of_Z k)) <$> a.

(** [df.empty] *)
Definition empty (df : DataFrame) : bool :=
  match rows df with [] => true | _ => false end.

(** [df[df['location'] == country]] *)
Definition loc_eq (country : string) (df : DataFrame) : DataFrame :=
  {| columns := columns df;
     rows := filter (fun r => location r = country) (rows df) |}.

(** ** Stage 1: ingestion *)

(** What one [pd.read_csv] call does: it returns a table, or raises an
    [Exception] whose [str] is [msg]. *)
Inductive read_outcome : Type :=
  | Loaded (df : DataFrame)
  | Failed (msg : string).

(** The notebook after the loading cell: what it printed, the binding of the
    variable [df], and the exception that left the cell, if any. *)
Record Loading : Type := mkLoading {
  stdout : list string;
  df : option DataFrame;
  raised : option exn
}.

(** [df.shape]: the identifier columns count too. *)
Definition shape (d : DataFrame) : nat * nat :=
  (length (rows d), 2 + length (columns d))%nat.

Definition loaded_msg (src : string) (d : DataFrame) : string :=
  "Data loaded successfully from " +:+ src +:+ " with " +:+ pretty (shape d).1
    +:+ " rows and " +:+ pretty (shape d).2 +:+ " columns.".

(** The loading cell: [remote] is the outcome of reading the URL, [local] the
    outcome of reading ['owid-covid-data.csv'] should it be attempted. *)
Definition load_observations (remote local : read_outcome) : Loading :=
  match remote with
  | Loaded d => {| stdout := [loaded_msg "URL" d]; df := Some d; raised := None |}
  | Failed e =>
      let out := ["Error loading data from URL: " +:+ e;
                  "Attempting to load from local file..."] in
      match local with
      | Loaded d =>
          {| stdout := out ++ [loaded_msg "local file" d]; df := Some d; raised := None |}
      | Failed e2 =>
          {| stdout := out ++
               ["Error loading data from local file: " +:+ e2;
                "Please ensure the 'owid-covid-data.csv' file is in your current working directory."];
             df := None; raised := None |}
      end
  end.

(** Reading the variable [df] in a later cell. *)
Definition read_df (l : Loading) : result DataFrame :=
  match df l with
  | Some d => Ok d
  | None => Raise (NameError "df")
  end.

(** ** Stage 2: scoping *)

Definition countries_of_interest : list string :=
  ["United States"; "India"; "Brazil"; "United Kingdom";
   "Germany"; "South Africa"; "Japan"; "Australia"; "Kenya"].

(** [df[df['location'].isin(entity_names)].copy()] *)
Definition scope_to_entities (entity_names : list string) (df : DataFrame) : DataFrame :=
  {| columns := columns df;
     rows := filter (fun r => location r ∈ entity_names) (rows df) |}.

(** [df_countries = df[df['location'].isin(countries_of_interest)].copy()] *)
Definition df_countries (df : DataFrame) : DataFrame :=
  scope_to_entities countries_of_interest df.

(** ** Stage 3: completeness filtering *)

(** A row is complete for [subset] when none of these cells is null. *)
Definition complete (subset : list string) (r : Row) : Prop :=
  Forall (fun c => notnull (cell c r)) subset.

#[export] Instance complete_dec subset r : Decision (complete subset r).
Proof. unfold complete. apply _. Defined.

(** [df.dropna(subset=subset)]: a label that is no column raises [KeyError]
    with the missing labels. *)
Definition dropna (subset : list string) (df : DataFrame) : result DataFrame :=
  match filter (fun c => c ∉ columns df) subset with
  | [] => Ok {| columns := columns df; rows := filter (complete subset) (rows df) |}
  | missing => Raise (KeyError missing)
  end.

(** [complete_cases = df_countries.dropna(subset=['total_cases', 'total_deaths'])],
    which [df_clean] copies. *)
Definition complete_cases (df_countries : DataFrame) : result DataFrame :=
  dropna ["total_cases"; "total_deaths"] df_countries.

Definition vax_columns : list string :=
  ["total_vaccinations"; "people_vaccinated"; "people_fully_vaccinated"].

(** The vaccination table: the filter runs on the vaccination columns that
    [df] has; with none of them the result is the empty frame. *)
Definition df_vax (df df_countries : DataFrame) : result DataFrame :=
  let vax_columns_available := filter (fun c => c ∈ columns df) vax_columns in
  match vax_columns_available with
  | [] => Ok {| columns := []; rows := [] |}
  | _ => dropna vax_columns_available df_countries
  end.

(** ** Stage 4: metric derivation *)

(** The cell "Calculate additional metrics": [death_rate] always, the two
    per-million columns under the guard ['population' in df_clean.columns].
    The cell assigns into [df_clean]; here the updated frame is returned. *)
Definition derive_metrics (df_clean : DataFrame) : result DataFrame :=
  deaths ← getitem "total_deaths" df_clean;
  cases ← getitem "total_cases" df_clean;
  let df1 := setitem "death_rate" (smul (sdiv deaths cases) 100) df_clean in
  if decide ("population" ∈ columns df1) then
    cases ← getitem "total_cases" df1;
    pop ← getitem "population" df1;
    let df2 := setitem "cases_per_million" (smul (sdiv cases pop) 1000000) df1 in
    deaths ← getitem "total_deaths" df2;
    pop ← getitem "population" df2;
    Ok (setitem "deaths_per_million" (smul (sdiv deaths pop) 1000000) df2)
  else Ok df1.

(** ** Rolling averages *)

(** [s.rolling(window=7).mean()] is the library's: [Rolling._prep_values]
    turns infinite values into missing ones, and [roll_mean] (pandas
    [_libs/window/aggregations.pyx], as in pandas 1.5 and later) slides over
    the values with a running state: a Kahan-compensated sum, the number of
    observations and of negative ones in the window, and the length of the
    current run of equal observations. [min_periods] defaults to the window
    size. *)
Record MeanState : Type := mkMeanState {
  nobs : Z;
  sum_x : float64;
  neg_ct : Z;
  compensation_add : float64;
  compensation_remove : float64;
  num_consecutive_same_value : Z;
  prev_value : float64
}.

(** [add_mean]: a value enters the window; a missing value is skipped. *)
Definition add_mean (val : float64) (st : MeanState) : MeanState :=
  if notnull val then
    let y := sub val (compensation_add st) in
    let t := add (sum_x st) y in
    {| nobs := nobs st + 1;
       sum_x := t;
       neg_ct := if signbit val then neg_ct st + 1 else neg_ct st;
       compensation_add := sub (sub t (sum_x st)) y;
       compensation_remove := compensation_remove st;
       num_consecutive_same_value :=
         if float_eq val (prev_value st)
         then num_consecutive_same_value st + 1 else 1;
       prev_value := val |}
  else st.

(** [remove_mean]: a value leaves the window. *)
Definition remove_mean (val : float64) (st : MeanState) : MeanState :=
  if notnull val then
    let y := sub (opp val) (compensation_remove st) in
    let t := add (sum_x st) y in
    {| nobs := nobs st - 1;
       sum_x := t;
       neg_ct := if signbit val then neg_ct st - 1 else neg_ct st;
       compensation_add := compensation_add st;
       compensation_remove := sub (sub t (sum_x st)) y;
       num_consecutive_same_value := num_consecutive_same_value st;
       prev_value := prev_value st |}
  else st.

(** [calc_mean]: the output for the current window. *)
Definition calc_mean (minp : Z) (st : MeanState) : float64 :=
  if (minp <=? nobs st) && (0 <? nobs st) then
    let result := div (sum_x st) (of_Z (nobs st)) in
    if nobs st <=? num_consecutive_same_value st then prev_value st
    else if (neg_ct st =? 0) && float_lt result zero then zero
    else if (neg_ct st =? nobs st) && float_lt zero result then zero
    else result
  else nan.

(** The state before the first value of a window. *)
Definition setup (first : float64) : MeanState :=
  {| nobs := 0; sum_x := zero; neg_ct := 0;
     compensation_add := zero; compensation_remove := zero;
     num_consecutive_same_value := 0; prev_value := first |}.

(** The [window] most recent elements of [buf]. *)
Definition most_recent (window : nat) (buf : list float64) : list float64 :=
  drop (length buf - window) buf.

(** The window that ends at position [i] of [s]. *)
Definition window_at (window i : nat) (s : Series) : list float64 :=
  most_recent window (take (S i) s).

(** The loop of [roll_mean] from some position on, [buf] holding the window
    that ends just before the current value and [st] the state left by it.
    With a window of two or more, the value that falls out of the window is
    removed and the current one added; with a window of at most one, no two
    windows overlap and the state is set up anew at every position. *)
Fixpoint roll_from (window : nat) (st : MeanState) (buf : list float64)
    (values : Series) : Series :=
  match values with
  | [] => []
  | val :: rest =>
      let buf' := most_recent window (buf ++ [val]) in
      let st' :=
        if decide (window ≤ 1)%nat
        then foldl (fun st v => add_mean v st) (setup val) buf'
        else add_mean val
               (foldl (fun st v => remove_mean v st) st
                  (take (S (length buf) - window) buf)) in
      calc_mean (Z.of_nat window) st' :: roll_from window st' buf' rest
  end.

Definition roll_mean (window : nat) (values : Series) : Series :=
  match values with
  | [] => []
  | first :: _ => roll_from window (setup first) [] values
  end.

(** [Rolling._prep_values]: an infinite value counts as missing. *)
Definition prep_values (s : Series) : Series :=
  (fun x => if is_inf x then nan else x) <$> s.

(** [s.rolling(window=window).mean()] *)
Definition rolling_mean (window : nat) (s : Series) : Series :=
  roll_mean window (prep_values s).

(** The body of the loop of "Daily New Cases" for one country: [None] when
    the guard skips the country. *)
Definition daily_new_cases (df_clean : DataFrame) (country : string)
  : result (option DataFrame) :=
  let country_data := loc_eq country df_clean in
  if negb (empty country_data) && bool_decide ("new_cases" ∈ columns country_data) then
    new_cases ← getitem "new_cases" country_data;
    Ok (Some (setitem "new_cases_smoothed" (rolling_mean 7 new_cases) country_data))
  else Ok None.

(** The body of the loop of "Comparing COVID-19 Waves" for one country. *)
Definition waves_panel (df_clean : DataFrame) (country : string)
  : result (option DataFrame) :=
  let country_data := loc_eq country df_clean in
  if negb (empty country_data) && bool_decide ("new_cases" ∈ columns country_data) then
    new_cases ← getitem "new_cases" country_data;
    let country_data :=
      setitem "new_cases_smoothed" (rolling_mean 7 new_cases) country_data in
    if decide ("new_deaths" ∈ columns country_data) then
      new_deaths ← getitem "new_deaths" country_data;
      Ok (Some (setitem "new_deaths_smoothed" (rolling_mean 7 new_deaths) country_data))
    else Ok (Some country_data)
  else Ok None.

(** ** The arithmetic mean of a window of counts *)

(** An observation of a window: a value that is neither missing nor
    infinite. *)
Definition valid (x : float64) : bool := notnull x && negb (is_inf x).

(** A daily count, or no observation: an integer of magnitude at most
    [2^50], so that seven of them add up without rounding. *)
Definition count_bound : Z := 2 ^ 50.

Definition is_count (x : float64) : bool :=
  negb (valid x)
  || (bool_decide (x = of_Z (to_Z x)) && (Z.abs (to_Z x) <=? count_bound)).

Definition int_sum (buf : list float64) : Z := foldr Z.add 0 (to_Z <$> buf).

(** The arithmetic mean of integer values: their exact sum, divided by
    their number and rounded once. *)
Definition arithmetic_mean (xs : list float64) : float64 :=
  div (of_Z (int_sum xs)) (of_Z (Z.of_nat (length xs))).

(** ** Notions for the proofs about the rolling state *)

(** The 53-bit mantissa and the exponent of a positive integer below
    [2^53]. *)
Definition canon (n : positive) : positive * Z :=
  let d := 53 - Zpos (digits2_pos n) in
  (Z.to_pos (Zpos n * 2 ^ d), - d).

Definition count_valid (buf : list float64) : Z :=
  Z.of_nat (length (filter (fun x => notnull x = true) buf)).

Definition count_neg (buf : list float64) : Z :=
  Z.of_nat (length (filter (fun x => notnull x && signbit x = true) buf)).

(** A value as [roll_mean] receives it from a series of counts. *)
Definition counted (x : float64) : Prop :=
  isnull x = true ∨ (x = of_Z (to_Z x) ∧ Z.abs (to_Z x) <= count_bound).

(** The state of [roll_mean] over a window [buf] of counts: the sum is
    exact and nothing is held in compensation. *)
Definition exact_state (st : MeanState) (buf : list float64) : Prop :=
  Forall counted buf ∧ (length buf ≤ 7)%nat
  ∧ nobs st = count_valid buf
  ∧ neg_ct st = count_neg buf
  ∧ sum_x st = of_Z (int_sum buf)
  ∧ compensation_add st = zero ∧ compensation_remove st = zero
  ∧ counted (prev_value st)
  ∧ 0 <= num_consecutive_same_value st
  ∧ forall j x, reverse (filter (fun x => notnull x = true) buf) !! j = Some x ->
      Z.of_nat j < num_consecutive_same_value st -> x = prev_value st.

(** ** Latest row per country *)

(** Ascending dates, [NaT] last ([na_position='last']). *)
Definition date_le (a b : option Z) : Prop :=
  match a, b with
  | Some x, Some y => x <= y
  | _, None => True
  | None, Some _ => False
  end.

Definition by_date (r1 r2 : Row) : Prop := date_le (date r1) (date r2).

#[export] Instance date_le_dec a b : Decision (date_le a b).
Proof. destruct a, b; simpl; apply _. Defined.

#[export] Instance by_date_dec r1 r2 : Decision (by_date r1 r2).
Proof. unfold by_date. apply _. Defined.

(** The order of group keys: strings by code point. *)
Definition str_le (a b : string) : Prop := String.leb a b.

(** The keys of [groupby('location')]: the distinct locations, sorted. *)
Definition group_keys (l : list Row) : list string :=
  merge_sort str_le (remove_dups (location <$> l)).

(** [GroupBy.last] on one group: per column, the last non-null value. *)
Definition last_date (group : list Row) : option Z :=
  default None (last (filter is_Some (date <$> group))).

Definition last_valid (c : string) (group : list Row) : float64 :=
  default nan (last (filter (fun x => notnull x) (cell c <$> group))).

Definition agg_last (cols : list string) (key : string) (group : list Row) : Row :=
  {| location := key;
     date := last_date group;
     cells := list_to_map ((fun c => (c, last_valid c group)) <$> cols) |}.

Section Latest.

(** [sort_values('date')] on the rows of a frame. The library's default
    sorting algorithm is not stable, so the order it gives to rows of equal
    date is left open: the properties below assume only that the result is
    a date-sorted permutation. *)
Variable sort_values : list Row -> list Row.

(** The rows of one country in the sorted frame. *)
Definition date_ordered (country : string) (df : DataFrame) : list Row :=
  filter (fun r => location r = country) (sort_values (rows df)).

(** [df_clean.sort_values('date').groupby('location').last().reset_index()] *)
Definition latest_data (df_clean : DataFrame) : DataFrame :=
  {| columns := columns df_clean;
     rows := (fun k => agg_last (columns df_clean) k (date_ordered k df_clean))
               <$> group_keys (sort_values (rows df_clean)) |}.

End Latest.

(** ** The stages in sequence *)

(** Loading, scoping, the case/death completeness filter and the derivation,
    each on the table the previous one left. *)
Definition pipeline (remote local : read_outcome) : result DataFrame :=
  df ← read_df (load_observations remote local);
  df_clean ← complete_cases (df_countries df);
  derive_metrics df_clean.

(** ** Sample data *)

Definition row (loc : string) (d : Z) (vals : list (string * float64)) : Row :=
  {| location := loc; date := Some d; cells := list_to_map vals |}.

(** A frame that passes the completeness filter with a zero case count. *)
Definition zero_cases_frame : DataFrame :=
  {| columns := ["total_cases"; "total_deaths"];
     rows := [row "Kenya" 1 [("total_cases", of_Z 0); ("total_deaths", of_Z 5)];
              row "Kenya" 2 [("total_cases", of_Z 4); ("total_deaths", of_Z 1)]] |}.

(** The same observations with a population column. *)
Definition population_frame : DataFrame :=
  {| columns := ["total_cases"; "total_deaths"; "population"];
     rows := [row "Kenya" 1 [("total_cases", of_Z 4); ("total_deaths", of_Z 1);
                             ("population", of_Z 2000000)]] |}.

(** Two observations with the same case count, the first without a death
    count. *)
Definition two_row_frame : DataFrame :=
  {| columns := ["total_cases"; "total_deaths"];
     rows := [row "Kenya" 1 [("total_cases", of_Z 5); ("total_deaths", nan)];
              row "Kenya" 2 [("total_cases", of_Z 5); ("total_deaths", of_Z 1)]] |}.


(** Three observations, two of them without a date and one of these
    without a death count. *)
Definition undated_frame : DataFrame :=
  {| columns := ["total_cases"; "total_deaths"];
     rows := [row "Kenya" 1 [("total_cases", of_Z 5); ("total_deaths", of_Z 1)];
              {| location := "Kenya"; date := None;
                 cells := list_to_map [("total_cases", of_Z 6); ("total_deaths", nan)] |};
              {| location := "Kenya"; date := None;
                 cells := list_to_map [("total_cases", of_Z 7); ("total_deaths", of_Z 1)] |}] |}.

(** Daily observations of one country: a date and a [new_cases] value per
    row, the total counts being present in every row. *)
Definition daily (loc : string) (obs : list (Z * float64)) : list Row :=
  (fun '(d, nc) =>
     row loc d [("total_cases", of_Z 10); ("total_deaths", of_Z 1); ("new_cases", nc)])
  <$> obs.

Definition daily_columns : list string := ["total_cases"; "total_deaths"; "new_cases"].

(** Ten days in date order, the third without a [new_cases] value. *)
Definition gap_frame : DataFrame :=
  {| columns := daily_columns;
     rows := daily "Kenya"
               [(1, of_Z 1); (2, of_Z 2); (3, nan); (4, of_Z 4); (5, of_Z 5);
                (6, of_Z 6); (7, of_Z 7); (8, of_Z 8); (9, of_Z 9); (10, of_Z 10)] |}.

(** Eight complete days, stored latest first. *)
Definition latest_first_frame : DataFrame :=
  {| columns := daily_columns;
     rows := daily "Kenya"
               [(8, of_Z 8); (7, of_Z 7); (6, of_Z 6); (5, of_Z 5);
                (4, of_Z 4); (3, of_Z 3); (2, of_Z 2); (1, of_Z 1)] |}.

(** The same eight days in date order. *)
Definition earliest_first_frame : DataFrame :=
  {| columns := daily_columns;
     rows := daily "Kenya"
               [(1, of_Z 1); (2, of_Z 2); (3, of_Z 3); (4, of_Z 4);
                (5, of_Z 5); (6, of_Z 6); (7, of_Z 7); (8, of_Z 8)] |}.

(** Two days of one country, the later one without a [new_cases] value. *)
Definition late_gap_frame : DataFrame :=
  {| columns := daily_columns;
     rows := daily "Kenya" [(1, of_Z 3); (2, nan)] |}.

(** Two series that end in the same seven values, after two large values
    and after two zeros. *)
Definition after_large : Series :=
  [S754_finite false 4503599627370496 148; S754_finite false 4503599627370496 48]
  ++ (of_Z <$> [1; 2; 3; 4; 5; 6; 7]).

Definition after_zeros : Series := of_Z <$> [0; 0; 1; 2; 3; 4; 5; 6; 7].

(** Twelve days, the fourth with an infinite [new_cases]. *)
Definition inf_frame : DataFrame :=
  {| columns := daily_columns;
     rows := daily "Kenya"
               [(1, of_Z 1); (2, of_Z 2); (3, of_Z 3); (4, inf); (5, of_Z 5);
                (6, of_Z 6); (7, of_Z 7); (8, of_Z 8); (9, of_Z 9); (10, of_Z 10);
                (11, of_Z 11); (12, of_Z 12)] |}.

(** The dates of a frame with the smoothed value of each row. *)
Definition smoothed_by_date (out : DataFrame) : list (option Z * float64) :=
  (fun r => (date r, cell "new_cases_smoothed" r)) <$> rows out.

(** Eight days of one country with daily cases and deaths. *)
Definition waves_frame : DataFrame :=
  {| columns := ["new_cases"; "new_deaths"];
     rows := (fun d => row "India" d [("new_cases", of_Z d); ("new_deaths", of_Z (2 * d))])
               <$> [1; 2; 3; 4; 5; 6; 7; 8] |}.

(** ** The derivation, row by row *)

(** What [derive_metrics] writes into one row; the lemmas below relate the
    column-wise code to these. *)
Definition with_death_rate (r : Row) : Row :=
  set_cell "death_rate" (ratio (cell "total_deaths" r) (cell "total_cases" r) 100) r.

Definition with_cases_per_million (r : Row) : Row :=
  set_cell "cases_per_million"
    (ratio (cell "total_cases" r) (cell "population" r) 1000000) r.

Definition with_deaths_per_million (r : Row) : Row :=
  set_cell "deaths_per_million"
    (ratio (cell "total_deaths" r) (cell "population" r) 1000000) r.

Definition derive_row (has_population : bool) (r : Row) : Row :=
  if has_population
  then with_deaths_per_million (with_cases_per_million (with_death_rate r))
  else with_death_rate r.

Definition derive_columns (has_population : bool) (cols : list string) : list string :=
  if has_population
  then add_label "deaths_per_million"
         (add_label "cases_per_million" (add_label "death_rate" cols))
  else add_label "death_rate" cols.

(** ** The cells around the stages *)

(** How a cell that prints a share of records can end: normally, with what
    it printed; with an exception of the table library; or with the
    [ZeroDivisionError] of [len(a)/len(b)] on an empty [b]. *)
Inductive cell_outcome (A : Type) : Type :=
  | Completed (a : A) (printed : list string)
  | Stopped (e : exn)
  | ZeroDivisionError.
Arguments Completed {A} a printed.
Arguments Stopped {A} e.
Arguments ZeroDivisionError {A}.

Section Reports.

(** [f"{x:.2f}"]: the decimal rendering of a float is left to the caller. *)
Variable format_2f : float64 -> string.

(** [part/whole*100] for two lengths, the second one not zero. *)
Definition share (part whole : nat) : float64 :=
  ratio (of_Z (Z.of_nat part)) (of_Z (Z.of_nat whole)) 100.

(** [f"Records with {what}: {part} out of {whole} ({part/whole*100:.2f}%)"] *)
Definition records_msg (what : string) (part whole : nat) : string :=
  "Records with " +:+ what +:+ ": " +:+ pretty part +:+ " out of " +:+ pretty whole
    +:+ " (" +:+ format_2f (share part whole) +:+ "%)".

(** The cell that builds [df_clean]: the filter, then the printed share, then
    the copy. *)
Definition complete_cases_cell (df_countries : DataFrame) : cell_outcome DataFrame :=
  match complete_cases df_countries with
  | Raise e => Stopped e
  | Ok complete_cases =>
      match length (rows df_countries) with
      | O => ZeroDivisionError
      | S _ =>
          Completed complete_cases
            [records_msg "both total_cases and total_deaths"
               (length (rows complete_cases)) (length (rows df_countries))]
      end
  end.

(** The cell that builds [df_vax]. *)
Definition vax_cell (df df_countries : DataFrame) : cell_outcome DataFrame :=
  let vax_columns_available := filter (fun c => c ∈ columns df) vax_columns in
  match vax_columns_available with
  | [] => Completed {| columns := []; rows := [] |}
            ["No vaccination columns found in the dataset."]
  | _ =>
      match dropna vax_columns_available df_countries with
      | Raise e => Stopped e
      | Ok vax_data =>
          match length (rows df_countries) with
          | O => ZeroDivisionError
          | S _ =>
              Completed vax_data
                [records_msg "vaccination data"
                   (length (rows vax_data)) (length (rows df_countries))]
          end
      end
  end.

End Reports.

(** The countries of the "Comparing COVID-19 Waves" panels. *)
Definition selected_countries : list string :=
  ["United States"; "India"; "United Kingdom"; "Germany"; "South Africa"].

(** ** Line charts *)

(** One line of a chart: [plt.plot(x, y, label=label)], the points being the
    pairs of [x] and [y]. *)
Record Line : Type := mkLine {
  label : string;
  points : list (option Z * float64)
}.

(** A [for] loop whose body may raise and may draw nothing: the lines drawn,
    in order, or the first exception. *)
Fixpoint for_each {A B : Type} (body : A -> result (option B)) (l : list A)
  : result (list B) :=
  match l with
  | [] => Ok []
  | x :: l' =>
      drawn ← body x;
      rest ← for_each body l';
      Ok (match drawn with Some b => b :: rest | None => rest end)
  end.

(** The loop body of the "over time" charts: the country is skipped when it
    has no row, and the column is read only after that test. *)
Definition country_line (column : string) (df_clean : DataFrame) (country : string)
  : result (option Line) :=
  let country_data := loc_eq country df_clean in
  if negb (empty country_data) then
    ys ← getitem column country_data;
    Ok (Some {| label := country; points := zip (date <$> rows country_data) ys |})
  else Ok None.

(** "Total Cases Over Time" and "Total Deaths Over Time". *)
Definition chart_over_time (column : string) (df_clean : DataFrame) : result (list Line) :=
  for_each (country_line column df_clean) countries_of_interest.

(** The per-million charts: the whole cell is under
    [if column in df_clean.columns]; [None] when nothing is drawn. *)
Definition chart_if_present (column : string) (df_clean : DataFrame)
  : result (option (list Line)) :=
  if decide (column ∈ columns df_clean)
  then Some <$> chart_over_time column df_clean
  else Ok None.

(** The loop body of "Death Rate Analysis": the column test is part of the
    guard of each country. *)
Definition guarded_country_line (column : string) (df_clean : DataFrame)
    (country : string) : result (option Line) :=
  let country_data := loc_eq country df_clean in
  if negb (empty country_data) && bool_decide (column ∈ columns country_data) then
    ys ← getitem column country_data;
    Ok (Some {| label := country; points := zip (date <$> rows country_data) ys |})
  else Ok None.

Definition death_rate_chart (df_clean : DataFrame) : result (list Line) :=
  for_each (guarded_country_line "death_rate" df_clean) countries_of_interest.

(** The line of one country: its rows in table order. *)
Definition line_of (column : string) (df : DataFrame) (country : string) : Line :=
  {| label := country;
     points := (fun r => (date r, cell column r))
                 <$> filter (fun r => location r = country) (rows df) |}.

(** What the loop draws for one country when the column exists. *)
Definition line_if_rows (column : string) (df : DataFrame) (country : string)
  : option Line :=
  if decide (country ∈ location <$> rows df)
  then Some (line_of column df country) else None.

(** ** Counts *)

(** [df[c].isnull().sum()] for a measure column. *)
Definition null_count (c : string) (df : DataFrame) : nat :=
  length (filter (fun r => isnull (cell c r) = true) (rows df)).

(** [df['date'].isnull().sum()]: the rows without a date. *)
Definition null_dates (df : DataFrame) : nat :=
  length (filter (fun r => date r = None) (rows df)).

(** The number of occurrences of a label in a column of labels. *)
Definition occurrences (k : string) (s : list string) : nat :=
  length (filter (fun x => x = k) s).

Section Counts.

(** The descending sort of a series of counts; as for the dates, the order
    of equal counts is the algorithm's choice. *)
Variable sort_descending : list (string * nat) -> list (string * nat).

(** [s.value_counts()]: each value that occurs, with its number of
    occurrences, the most frequent first. *)
Definition value_counts (s : list string) : list (string * nat) :=
  sort_descending ((fun k => (k, occurrences k s)) <$> remove_dups s).

(** [country_counts = df_countries['location'].value_counts()] *)
Definition country_counts (df_countries : DataFrame) : list (string * nat) :=
  value_counts (location <$> rows df_countries).

(** [missing_values = df.isnull().sum()]: the null count of every column
    of the table, the two identifier columns included (a row always has a
    location; it has no date when [date] is [None]). What the cell shows is
    [missing_values[missing_values > 0].sort_values(ascending=False)], in
    which the place of a label in the table no longer shows. *)
Definition missing_values (df : DataFrame) : list (string * nat) :=
  ("location", 0%nat) :: ("date", null_dates df)
  :: ((fun c => (c, null_count c df)) <$> columns df).

Definition missing_shown (df : DataFrame) : list (string * nat) :=
  sort_descending (filter (fun kv => (0 < kv.2)%nat) (missing_values df)).

End Counts.

(** Counts in descending order. *)
Definition count_ge (a b : string * nat) : Prop := (b.2 ≤ a.2)%nat.

(** * Properties *)

(** ** Binary64: rounding never produces a null *)

Section RoundingNeverNan.

Variables p e : Z.

Lemma shr_1_nonneg mrs : 0 <= shr_m mrs -> 0 <= shr_m (shr_1 mrs).
Proof.
  destruct mrs as [m r s]; simpl.
  destruct m as [|[q|q|]|[q|q|]]; simpl; lia.
Qed.

Lemma iter_shr_1_nonneg n : forall mrs,
  0 <= shr_m mrs -> 0 <= shr_m (SpecFloat.iter_pos shr_1 n mrs).
Proof.
  induction n as [n IH|n IH|]; intros mrs H; simpl.
  - apply IH, IH, shr_1_nonneg, H.
  - apply IH, IH, H.
  - apply shr_1_nonneg, H.
Qed.

Lemma shr_nonneg mrs x n : 0 <= shr_m mrs -> 0 <= shr_m (shr mrs x n).1.
Proof. intros H. destruct n; simpl; auto using iter_shr_1_nonneg. Qed.

Lemma shr_record_of_loc_m m l : shr_m (shr_record_of_loc m l) = m.
Proof. destruct l as [|[]]; reflexivity. Qed.

Lemma shr_fexp_nonneg m x l : 0 <= m -> 0 <= shr_m (shr_fexp p e m x l).1.
Proof.
  intros H. unfold shr_fexp. apply shr_nonneg.
  rewrite shr_record_of_loc_m. exact H.
Qed.

Lemma round_nearest_even_nonneg m l : 0 <= m -> 0 <= round_nearest_even m l.
Proof.
  intros H. destruct l as [|[]]; simpl; try lia.
  destruct (Z.even m); lia.
Qed.

Lemma binary_round_aux_not_nan sx mx ex lx :
  0 <= mx -> binary_round_aux p e sx mx ex lx <> S754_nan.
Proof.
  intros H. unfold binary_round_aux.
  pose proof (shr_fexp_nonneg mx ex lx H) as H1.
  destruct (shr_fexp p e mx ex lx) as [mrs' e']; simpl in H1.
  pose proof (shr_fexp_nonneg _ e' loc_Exact
                (round_nearest_even_nonneg _ (loc_of_shr_record mrs') H1)) as H2.
  destruct (shr_fexp p e _ e' loc_Exact) as [mrs'' e'']; simpl in H2.
  destruct (shr_m mrs'') as [|m|m]; try discriminate; try lia.
  destruct (e'' <=? e - p); discriminate.
Qed.

Lemma SFmul_finite_not_nan sx mx ex sy my ey :
  SFmul p e (S754_finite sx mx ex) (S754_finite sy my ey) <> S754_nan.
Proof. simpl. apply binary_round_aux_not_nan. lia. Qed.

Lemma SFdiv_finite_not_nan sx mx ex sy my ey :
  SFdiv p e (S754_finite sx mx ex) (S754_finite sy my ey) <> S754_nan.
Proof.
  unfold SFdiv, SFdiv_core_binary.
  set (m' := match _ with Z0 => _ | Zpos _ => _ | Zneg _ => _ end).
  assert (0 <= m') as Hm'.
  { subst m'. destruct (_ - _ - _); try lia. apply Z.shiftl_nonneg. lia. }
  pose proof (Z.div_eucl_eq m' (Z.pos my) ltac:(lia)) as Heq.
  pose proof (Z.mod_pos_bound m' (Z.pos my) ltac:(lia)) as Hr.
  unfold Z.modulo in Hr.
  destruct (Z.div_eucl m' (Z.pos my)) as [q r].
  apply binary_round_aux_not_nan. nia.
Qed.

End RoundingNeverNan.

(** ** Binary64: when a scaled ratio is null or infinite *)

Lemma div_null x y : isnull (div x y) = undefined_quotient x y.
Proof.
  destruct x as [sx|sx| |sx mx ex], y as [sy|sy| |sy my ey]; try reflexivity.
  change (undefined_quotient _ _) with false.
  destruct (div (S754_finite sx mx ex) (S754_finite sy my ey)) eqn:E;
    try reflexivity.
  by apply SFdiv_finite_not_nan in E.
Qed.

Lemma mul_finite_null x s m ex :
  isnull (mul x (S754_finite s m ex)) = isnull x.
Proof.
  destruct x as [sx|sx| |sx mx ex']; try reflexivity.
  change (isnull (S754_finite sx mx ex')) with false.
  destruct (mul _ _) eqn:E; try reflexivity.
  by apply SFmul_finite_not_nan in E.
Qed.

Lemma mul_finite_inf x s m ex :
  is_inf x = true -> is_inf (mul x (S754_finite s m ex)) = true.
Proof. destruct x; simpl; congruence. Qed.

Lemma of_Z_100 : of_Z 100 = S754_finite false 7036874417766400 (-46).
Proof. reflexivity. Qed.

Lemma of_Z_1000000 : of_Z 1000000 = S754_finite false 8589934592000000 (-33).
Proof. reflexivity. Qed.

Lemma div_by_zero_inf x y :
  is_zero y = true -> isnull x = false -> is_zero x = false ->
  is_inf (div x y) = true.
Proof. destruct x, y; simpl; congruence. Qed.

(** ** Frames: reading and writing columns *)

Lemma cell_set_cell_eq c v r : cell c (set_cell c v r) = v.
Proof. unfold cell, set_cell; simpl. by rewrite lookup_insert_eq. Qed.

Lemma cell_set_cell_ne c c' v r : c ≠ c' -> cell c' (set_cell c v r) = cell c' r.
Proof. intros H. unfold cell, set_cell; simpl. by rewrite lookup_insert_ne. Qed.

Lemma elem_of_add_label c c' cols : c ∈ add_label c' cols <-> c = c' ∨ c ∈ cols.
Proof.
  unfold add_label. case_decide as Hin.
  - split; [auto|]. by intros [->|].
  - rewrite elem_of_app, list_elem_of_singleton. tauto.
Qed.

Lemma add_label_elem c cols : c ∈ cols -> add_label c cols = cols.
Proof. intros H. unfold add_label. by rewrite decide_True. Qed.

Lemma getitem_elem c df : c ∈ columns df -> getitem c df = Ok (cell c <$> rows df).
Proof. intros H. unfold getitem. by rewrite decide_True. Qed.

Lemma getitem_Ok_inv c df s :
  getitem c df = Ok s -> c ∈ columns df ∧ s = cell c <$> rows df.
Proof. unfold getitem. case_decide; [|discriminate]. by intros [= <-]. Qed.

Lemma setitem_fmap c (f : Row -> float64) df :
  setitem c (f <$> rows df) df =
  {| columns := add_label c (columns df);
     rows := (fun r => set_cell c (f r) r) <$> rows df |}.
Proof. unfold setitem. f_equal. by rewrite zip_with_fmap_l, zip_with_diag. Qed.

Lemma ratio_series a b k (l : list Row) :
  smul (sdiv (cell a <$> l) (cell b <$> l)) k =
  (fun r => ratio (cell a r) (cell b r) k) <$> l.
Proof.
  unfold smul, sdiv.
  rewrite zip_with_fmap_l, zip_with_fmap_r, zip_with_diag, <- list_fmap_compose.
  reflexivity.
Qed.

(** ** Metric derivation, row by row *)

Lemma derive_metrics_rows df :
  "total_deaths" ∈ columns df -> "total_cases" ∈ columns df ->
  derive_metrics df =
  Ok {| columns := derive_columns (bool_decide ("population" ∈ columns df)) (columns df);
        rows := derive_row (bool_decide ("population" ∈ columns df)) <$> rows df |}.
Proof.
  intros Hd Hc. unfold derive_metrics.
  rewrite (getitem_elem _ _ Hd), (getitem_elem _ _ Hc). simpl.
  rewrite ratio_series, setitem_fmap. fold with_death_rate.
  assert (forall d : DataFrame, "population" ∈ add_label "death_rate" (columns d)
                                <-> "population" ∈ columns d) as Hp.
  { intros d. rewrite elem_of_add_label. split; [by intros [[=]|]|auto]. }
  destruct (decide ("population" ∈ columns df)) as [Hpop|Hpop].
  - rewrite (bool_decide_eq_true_2 _ Hpop), decide_True by (simpl; by apply Hp).
    set (df1 := {| columns := _; rows := with_death_rate <$> rows df |}).
    rewrite !getitem_elem by (simpl; rewrite elem_of_add_label; auto).
    simpl. rewrite ratio_series.
    change (with_death_rate <$> rows df) with (rows df1).
    rewrite (setitem_fmap "cases_per_million" _ df1). fold with_cases_per_million.
    set (df2 := {| columns := _; rows := with_cases_per_million <$> rows df1 |}).
    rewrite !getitem_elem by (simpl; rewrite !elem_of_add_label; auto).
    simpl. rewrite ratio_series.
    change (with_cases_per_million <$> rows df1) with (rows df2).
    rewrite (setitem_fmap "deaths_per_million" _ df2). fold with_deaths_per_million.
    subst df2 df1. simpl. rewrite <- !list_fmap_compose. reflexivity.
  - rewrite (bool_decide_eq_false_2 _ Hpop), decide_False by (simpl; by rewrite Hp).
    reflexivity.
Qed.

Lemma derive_metrics_Ok_inv df out :
  derive_metrics df = Ok out ->
  "total_deaths" ∈ columns df ∧ "total_cases" ∈ columns df.
Proof.
  unfold derive_metrics, getitem.
  destruct (decide ("total_deaths" ∈ columns df)); [|discriminate].
  destruct (decide ("total_cases" ∈ columns df)); [|discriminate].
  auto.
Qed.

Lemma derive_metrics_Ok df out :
  derive_metrics df = Ok out ->
  out = {| columns := derive_columns (bool_decide ("population" ∈ columns df)) (columns df);
           rows := derive_row (bool_decide ("population" ∈ columns df)) <$> rows df |}.
Proof.
  intros H. destruct (derive_metrics_Ok_inv _ _ H) as [Hd Hc].
  rewrite (derive_metrics_rows _ Hd Hc) in H. congruence.
Qed.

(** The base columns of a row survive the derivation. *)
Lemma derive_row_base b c r :
  c ≠ "death_rate" -> c ≠ "cases_per_million" -> c ≠ "deaths_per_million" ->
  cell c (derive_row b r) = cell c r.
Proof.
  intros H1 H2 H3. unfold derive_row, with_deaths_per_million,
    with_cases_per_million, with_death_rate.
  destruct b; by rewrite ?cell_set_cell_ne.
Qed.

Lemma derive_row_death_rate b r :
  cell "death_rate" (derive_row b r) =
  ratio (cell "total_deaths" r) (cell "total_cases" r) 100.
Proof.
  unfold derive_row, with_deaths_per_million, with_cases_per_million, with_death_rate.
  destruct b; rewrite ?cell_set_cell_ne by done; by rewrite cell_set_cell_eq.
Qed.

Lemma derive_row_per_million r :
  cell "cases_per_million" (derive_row true r) =
    ratio (cell "total_cases" r) (cell "population" r) 1000000
  ∧ cell "deaths_per_million" (derive_row true r) =
    ratio (cell "total_deaths" r) (cell "population" r) 1000000.
Proof.
  unfold derive_row, with_deaths_per_million, with_cases_per_million, with_death_rate.
  split.
  - rewrite cell_set_cell_ne by done. rewrite cell_set_cell_eq.
    by rewrite !cell_set_cell_ne.
  - rewrite cell_set_cell_eq. by rewrite !cell_set_cell_ne.
Qed.

(** A row that already holds the value is left as it is. *)
Lemma set_cell_id c v r : cells r !! c = Some v -> set_cell c v r = r.
Proof.
  intros H. destruct r as [l d m]. unfold set_cell; simpl in *.
  f_equal. by apply insert_id.
Qed.

Lemma lookup_set_cell_eq c v r : cells (set_cell c v r) !! c = Some v.
Proof. unfold set_cell; simpl. apply lookup_insert_eq. Qed.

Lemma lookup_set_cell_ne c c' v r :
  c ≠ c' -> cells (set_cell c v r) !! c' = cells r !! c'.
Proof. intros H. unfold set_cell; simpl. by apply lookup_insert_ne. Qed.

Lemma derive_row_lookup_death_rate b r :
  cells (derive_row b r) !! "death_rate" =
  Some (ratio (cell "total_deaths" r) (cell "total_cases" r) 100).
Proof.
  unfold derive_row, with_deaths_per_million, with_cases_per_million,
    with_death_rate.
  destruct b; rewrite ?lookup_set_cell_ne by done; by rewrite lookup_set_cell_eq.
Qed.

Lemma derive_row_lookup_per_million r :
  cells (derive_row true r) !! "cases_per_million" =
    Some (ratio (cell "total_cases" r) (cell "population" r) 1000000)
  ∧ cells (derive_row true r) !! "deaths_per_million" =
    Some (ratio (cell "total_deaths" r) (cell "population" r) 1000000).
Proof.
  unfold derive_row, with_deaths_per_million, with_cases_per_million,
    with_death_rate.
  split.
  - rewrite lookup_set_cell_ne by done. rewrite lookup_set_cell_eq.
    by rewrite !cell_set_cell_ne.
  - rewrite lookup_set_cell_eq. by rewrite !cell_set_cell_ne.
Qed.

Lemma derive_row_idem b r : derive_row b (derive_row b r) = derive_row b r.
Proof.
  set (R := derive_row b r).
  assert (with_death_rate R = R) as Hdr.
  { apply set_cell_id. subst R. rewrite derive_row_lookup_death_rate.
    by rewrite !derive_row_base. }
  destruct b; unfold derive_row at 1; rewrite Hdr; [|done].
  destruct (derive_row_lookup_per_million r) as [H1 H2]. fold R in H1, H2.
  assert (with_cases_per_million R = R) as Hc.
  { apply set_cell_id. rewrite H1. subst R. by rewrite !derive_row_base. }
  rewrite Hc. apply set_cell_id. rewrite H2. subst R. by rewrite !derive_row_base.
Qed.

Lemma derive_columns_idem b cols :
  derive_columns b (derive_columns b cols) = derive_columns b cols.
Proof.
  unfold derive_columns. destruct b.
  - set (L := add_label "deaths_per_million"
                (add_label "cases_per_million" (add_label "death_rate" cols))).
    assert ("death_rate" ∈ L ∧ "cases_per_million" ∈ L ∧ "deaths_per_million" ∈ L)
      as (H1 & H2 & H3) by (subst L; rewrite !elem_of_add_label; auto).
    by rewrite (add_label_elem _ L H1), (add_label_elem _ L H2), (add_label_elem _ L H3).
  - apply add_label_elem. rewrite elem_of_add_label. auto.
Qed.

Lemma population_derive_columns b cols :
  "population" ∈ derive_columns b cols <-> "population" ∈ cols.
Proof.
  unfold derive_columns. destruct b; rewrite !elem_of_add_label;
    (split; [intros H; repeat destruct H as [[=]|H]; done | auto]).
Qed.

Lemma base_derive_columns b c cols : c ∈ cols -> c ∈ derive_columns b cols.
Proof. unfold derive_columns. destruct b; rewrite !elem_of_add_label; auto. Qed.

(** ** The death rate (C1) *)

Lemma ratio_100_null x y : isnull (ratio x y 100) = undefined_quotient x y.
Proof. unfold ratio. by rewrite of_Z_100, mul_finite_null, div_null. Qed.

Lemma ratio_100_zero_divisor x y :
  is_zero y = true -> isnull x = false -> is_zero x = false ->
  is_inf (ratio x y 100) = true.
Proof.
  intros Hy Hx Hx0. unfold ratio. rewrite of_Z_100.
  by apply mul_finite_inf, div_by_zero_inf.
Qed.

(** The per-million ratios are null on the same operands. *)
Lemma ratio_1000000_null x y : isnull (ratio x y 1000000) = undefined_quotient x y.
Proof. unfold ratio. by rewrite of_Z_1000000, mul_finite_null, div_null. Qed.

(** C1, as the code has it. In every row of the output of metric derivation
    [death_rate] is [total_deaths / total_cases * 100] in binary64 arithmetic.
    It is not-a-number exactly when [total_deaths] or [total_cases] is null,
    or both are zero, or both are infinite. When [total_cases] is zero and
    [total_deaths] is a non-null, non-zero value, [death_rate] is an infinity,
    not a not-a-number. *)
Theorem death_rate_per_row df out r' :
  derive_metrics df = Ok out -> r' ∈ rows out ->
  cell "death_rate" r' = ratio (cell "total_deaths" r') (cell "total_cases" r') 100
  ∧ isnull (cell "death_rate" r') =
      undefined_quotient (cell "total_deaths" r') (cell "total_cases" r')
  ∧ (is_zero (cell "total_cases" r') = true ->
     isnull (cell "total_deaths" r') = false ->
     is_zero (cell "total_deaths" r') = false ->
     is_inf (cell "death_rate" r') = true).
Proof.
  intros Hout Hr'. apply derive_metrics_Ok in Hout. subst out. simpl in Hr'.
  apply list_elem_of_fmap in Hr' as (r & -> & _).
  rewrite derive_row_death_rate, !derive_row_base by done.
  split; [reflexivity|]. split; [apply ratio_100_null|].
  apply ratio_100_zero_divisor.
Qed.

Lemma death_rate_per_row_witness :
  let out := {| columns := ["total_cases"; "total_deaths"; "death_rate"];
                rows := derive_row false <$> rows zero_cases_frame |} in
  let r' := derive_row false
              (row "Kenya" 1 [("total_cases", of_Z 0); ("total_deaths", of_Z 5)]) in
  derive_metrics zero_cases_frame = Ok out ∧ r' ∈ rows out
  ∧ cell "death_rate" r' = ratio (cell "total_deaths" r') (cell "total_cases" r') 100
  ∧ isnull (cell "death_rate" r') =
      undefined_quotient (cell "total_deaths" r') (cell "total_cases" r')
  ∧ (is_zero (cell "total_cases" r') = true ->
     isnull (cell "total_deaths" r') = false ->
     is_zero (cell "total_deaths" r') = false ->
     is_inf (cell "death_rate" r') = true).
Proof.
  intros out r'.
  assert (derive_metrics zero_cases_frame = Ok out) as H1 by (vm_compute; reflexivity).
  assert (r' ∈ rows out) as H2 by (simpl; left).
  split; [exact H1|]. split; [exact H2|].
  exact (death_rate_per_row zero_cases_frame out r' H1 H2).
Defined.

(** C1, as stated, fails: a complete row with [total_cases = 0] and
    [total_deaths = 5] gets the death rate [+infinity], which is not a
    not-a-number value. *)
Lemma death_rate_zero_cases_is_inf :
  complete_cases zero_cases_frame = Ok zero_cases_frame
  ∧ (derive_metrics zero_cases_frame ≫= getitem "total_cases") = Ok [zero; of_Z 4]
  ∧ (derive_metrics zero_cases_frame ≫= getitem "death_rate") = Ok [inf; of_Z 25]
  ∧ isnull inf = false.
Proof. repeat split; vm_compute; reflexivity. Qed.

(** ** The per-million columns (C8) *)

(** C8. On a table that has the two base columns, metric derivation returns
    a table and raises nothing, with or without a [population] column. With
    [population], the output has [cases_per_million] and [deaths_per_million]
    and one row per input row, in order: the row keeps its location and date
    and holds [count / population * 1000000], computed from the input row,
    under the two labels. Without it, the only label added is [death_rate]:
    the two per-million labels are in the output only if the input already
    had them, and no cell is written under them. *)
Theorem per_million_iff_population df :
  "total_deaths" ∈ columns df -> "total_cases" ∈ columns df ->
  exists out, derive_metrics df = Ok out
  ∧ ("population" ∈ columns df ->
       "cases_per_million" ∈ columns out ∧ "deaths_per_million" ∈ columns out
       ∧ Forall2 (fun r r' =>
            location r' = location r ∧ date r' = date r
            ∧ cells r' !! "cases_per_million" =
                Some (ratio (cell "total_cases" r) (cell "population" r) 1000000)
            ∧ cells r' !! "deaths_per_million" =
                Some (ratio (cell "total_deaths" r) (cell "population" r) 1000000))
           (rows df) (rows out)
       ∧ forall r', r' ∈ rows out ->
           cell "cases_per_million" r' =
             ratio (cell "total_cases" r') (cell "population" r') 1000000
           ∧ cell "deaths_per_million" r' =
             ratio (cell "total_deaths" r') (cell "population" r') 1000000)
  ∧ ("population" ∉ columns df ->
       columns out = add_label "death_rate" (columns df)
       ∧ ("cases_per_million" ∉ columns df -> "cases_per_million" ∉ columns out)
       ∧ ("deaths_per_million" ∉ columns df -> "deaths_per_million" ∉ columns out)
       ∧ Forall2 (fun r r' =>
            location r' = location r ∧ date r' = date r
            ∧ forall c, c ≠ "death_rate" -> cells r' !! c = cells r !! c)
           (rows df) (rows out)).
Proof.
  intros Hd Hc. eexists. split; [apply (derive_metrics_rows _ Hd Hc)|]. simpl.
  split; intros Hpop.
  - rewrite (bool_decide_eq_true_2 _ Hpop). unfold derive_columns.
    rewrite !elem_of_add_label. split; [auto|]. split; [auto|]. split.
    + apply Forall2_fmap_r, Forall_Forall2_diag, Forall_forall.
      intros r _. unfold compose.
      destruct (derive_row_lookup_per_million r) as [-> ->]. done.
    + intros r' (r & -> & _)%list_elem_of_fmap.
      destruct (derive_row_per_million r) as [-> ->].
      by rewrite !derive_row_base.
  - rewrite (bool_decide_eq_false_2 _ Hpop). unfold derive_columns, derive_row.
    split; [reflexivity|]. rewrite !elem_of_add_label.
    split; [by intros ? [[=]|]|]. split; [by intros ? [[=]|]|].
    apply Forall2_fmap_r, Forall_Forall2_diag, Forall_forall.
    intros r _. unfold compose. split; [done|]. split; [done|].
    intros c Hne. by apply lookup_set_cell_ne.
Qed.

Lemma per_million_iff_population_witness :
  "total_deaths" ∈ columns population_frame ∧ "total_cases" ∈ columns population_frame
  ∧ "population" ∈ columns population_frame
  ∧ exists out, derive_metrics population_frame = Ok out
      ∧ Forall2 (fun r r' =>
           location r' = location r ∧ date r' = date r
           ∧ cells r' !! "cases_per_million" =
               Some (ratio (cell "total_cases" r) (cell "population" r) 1000000)
           ∧ cells r' !! "deaths_per_million" =
               Some (ratio (cell "total_deaths" r) (cell "population" r) 1000000))
          (rows population_frame) (rows out)
      ∧ ratio (of_Z 4) (of_Z 2000000) 1000000 = of_Z 2.
Proof.
  assert ("total_deaths" ∈ columns population_frame) as H1 by (simpl; repeat constructor).
  assert ("total_cases" ∈ columns population_frame) as H2 by (simpl; repeat constructor).
  assert ("population" ∈ columns population_frame) as H3 by (simpl; repeat constructor).
  split; [exact H1|]. split; [exact H2|]. split; [exact H3|].
  destruct (per_million_iff_population population_frame H1 H2) as (out & Hout & Hpop & _).
  exists out. split; [exact Hout|]. split; [exact (proj1 (proj2 (proj2 (Hpop H3))))|].
  vm_compute. reflexivity.
Defined.

(** The two runs of the derivation on sample frames, by evaluation. *)
Example per_million_present :
  (derive_metrics population_frame ≫= getitem "cases_per_million") = Ok [of_Z 2]
  ∧ (derive_metrics population_frame ≫= getitem "deaths_per_million")
    = Ok [S754_finite false 4503599627370496 (-53)].
Proof. split; vm_compute; reflexivity. Qed.

Example per_million_absent :
  (derive_metrics zero_cases_frame ≫= getitem "cases_per_million")
    = Raise (KeyError ["cases_per_million"])
  ∧ (columns <$> derive_metrics zero_cases_frame)
    = Ok ["total_cases"; "total_deaths"; "death_rate"].
Proof. split; vm_compute; reflexivity. Qed.

(** ** Re-derivation (C9) *)

(** C9. Metric derivation is idempotent: run on its own output it returns
    that output again, so every derived column is identical. *)
Theorem derive_metrics_idempotent df out :
  derive_metrics df = Ok out -> derive_metrics out = Ok out.
Proof.
  intros H. destruct (derive_metrics_Ok_inv _ _ H) as [Hd Hc].
  apply derive_metrics_Ok in H. subst out.
  set (b := bool_decide ("population" ∈ columns df)).
  rewrite derive_metrics_rows by (simpl; by apply base_derive_columns).
  simpl.
  assert (bool_decide ("population" ∈ derive_columns b (columns df)) = b) as ->.
  { subst b. apply bool_decide_ext, population_derive_columns. }
  rewrite derive_columns_idem, <- list_fmap_compose. f_equal. f_equal.
  apply list_fmap_ext. intros _ r _. apply derive_row_idem.
Qed.

Lemma derive_metrics_idempotent_witness :
  let out := {| columns := derive_columns true (columns population_frame);
                rows := derive_row true <$> rows population_frame |} in
  derive_metrics population_frame = Ok out ∧ derive_metrics out = Ok out.
Proof.
  intros out.
  assert (derive_metrics population_frame = Ok out) as H by (vm_compute; reflexivity).
  split; [exact H|]. exact (derive_metrics_idempotent population_frame out H).
Defined.

(** ** Lists *)

Lemma filter_none {A} (P : A -> Prop) `{forall x, Decision (P x)} (l : list A) :
  Forall (fun x => ¬ P x) l -> filter P l = [].
Proof.
  induction 1 as [|x l Hx _ IH]; [reflexivity|].
  by rewrite filter_cons_False.
Qed.

(** ** Ingestion (C4) *)

(** C4, as the code has it. When both reads fail, the loading cell raises
    nothing: it prints the two underlying error messages and a hint, finishes
    normally and leaves [df] unbound. The first later use of [df] then raises
    [NameError], so the pipeline yields no table. *)
Theorem both_loads_fail e1 e2 :
  let l := load_observations (Failed e1) (Failed e2) in
  raised l = None
  ∧ df l = None
  ∧ stdout l =
      ["Error loading data from URL: " +:+ e1;
       "Attempting to load from local file...";
       "Error loading data from local file: " +:+ e2;
       "Please ensure the 'owid-covid-data.csv' file is in your current working directory."]
  ∧ read_df l = Raise (NameError "df")
  ∧ pipeline (Failed e1) (Failed e2) = Raise (NameError "df").
Proof. repeat split. Qed.

(** C4, as stated, fails: with both reads failing no exception leaves the
    loading cell. *)
Lemma both_loads_fail_raises_nothing :
  raised (load_observations
            (Failed "HTTP Error 404: Not Found")
            (Failed "[Errno 2] No such file or directory: 'owid-covid-data.csv'"))
  = None.
Proof. reflexivity. Qed.

(** The fallback is taken only when the first read fails. *)
Lemma load_remote_first d local :
  df (load_observations (Loaded d) local) = Some d.
Proof. reflexivity. Qed.

Lemma load_local_fallback e d :
  df (load_observations (Failed e) (Loaded d)) = Some d.
Proof. reflexivity. Qed.

(** ** Scoping (C7) *)

(** C7. Scoping keeps the column labels and returns, in their order, the
    rows whose location is one of the entity names, each row unchanged: a row
    is in the result exactly when it is in the table with such a location,
    and the rows of every requested entity are those it has in the table. A
    requested entity with no row in the table has none in the result; no
    exception is involved. *)
Theorem scope_to_entities_spec entity_names df :
  columns (scope_to_entities entity_names df) = columns df
  ∧ rows (scope_to_entities entity_names df) `sublist_of` rows df
  ∧ (forall r, r ∈ rows (scope_to_entities entity_names df)
               <-> r ∈ rows df ∧ location r ∈ entity_names)
  ∧ (forall e, e ∈ entity_names ->
       loc_eq e (scope_to_entities entity_names df) = loc_eq e df)
  ∧ (forall e, e ∈ entity_names -> (forall r, r ∈ rows df -> location r ≠ e) ->
       rows (loc_eq e (scope_to_entities entity_names df)) = []).
Proof.
  assert (forall e, e ∈ entity_names ->
            loc_eq e (scope_to_entities entity_names df) = loc_eq e df) as Hpart.
  { intros e He. unfold loc_eq, scope_to_entities; simpl. f_equal.
    apply list_filter_filter_l. by intros r ->. }
  split; [reflexivity|]. split; [apply sublist_filter|].
  split; [|split; [exact Hpart|]].
  - intros r. unfold scope_to_entities; simpl.
    rewrite list_elem_of_filter. tauto.
  - intros e He Habs. rewrite (Hpart e He). unfold loc_eq; simpl.
    apply filter_none, Forall_forall. intros r Hr ?.
    by apply (Habs r Hr).
Qed.

Lemma scope_to_entities_spec_witness :
  "Wakanda" ∈ ["Kenya"; "Wakanda"]
  ∧ (forall r, r ∈ rows two_row_frame -> location r ≠ "Wakanda")
  ∧ rows (loc_eq "Wakanda" (scope_to_entities ["Kenya"; "Wakanda"] two_row_frame)) = [].
Proof.
  assert ("Wakanda" ∈ ["Kenya"; "Wakanda"]) as H1 by (right; left).
  assert (forall r, r ∈ rows two_row_frame -> location r ≠ "Wakanda") as H2.
  { apply Forall_forall. simpl. repeat (constructor; [discriminate|]). constructor. }
  split; [exact H1|]. split; [exact H2|].
  destruct (scope_to_entities_spec ["Kenya"; "Wakanda"] two_row_frame)
    as (_ & _ & _ & _ & Habsent).
  exact (Habsent "Wakanda" H1 H2).
Defined.

(** An entity that is not in the data gives a frame with no rows. *)
Example scope_to_absent_entity :
  scope_to_entities ["Wakanda"] two_row_frame
  = {| columns := ["total_cases"; "total_deaths"]; rows := [] |}.
Proof. reflexivity. Qed.

(** ** Completeness filtering (C6) *)

Lemma dropna_columns_present subset df :
  Forall (fun c => c ∈ columns df) subset ->
  dropna subset df =
  Ok {| columns := columns df; rows := filter (complete subset) (rows df) |}.
Proof.
  intros H. unfold dropna.
  rewrite (filter_none (fun c => c ∉ columns df) subset); [reflexivity|].
  eapply Forall_impl; [exact H|]. simpl. tauto.
Qed.

Lemma complete_iff subset r :
  complete subset r <-> forall c, c ∈ subset -> isnull (cell c r) = false.
Proof.
  unfold complete, notnull. rewrite Forall_forall.
  split; intros H c Hc; specialize (H c Hc);
    destruct (isnull (cell c r)); simpl in *; done.
Qed.



(** A required label that is no column of the table raises [KeyError]. *)
Lemma dropna_missing_column subset df c :
  c ∈ subset -> c ∉ columns df ->
  exists missing, dropna subset df = Raise (KeyError missing) ∧ c ∈ missing.
Proof.
  intros Hc Hn. unfold dropna.
  destruct (filter (fun c => c ∉ columns df) subset) as [|k ks] eqn:E.
  - assert (c ∈ filter (fun c => c ∉ columns df) subset) as Hin
      by (by apply list_elem_of_filter).
    rewrite E in Hin. by apply elem_of_nil in Hin.
  - eexists. split; [reflexivity|]. rewrite <- E. by apply list_elem_of_filter.
Qed.

(** The vaccination table filters on the vaccination columns the data has. *)
Lemma df_vax_rows df dfc :
  columns dfc = columns df ->
  df_vax df dfc =
  match filter (fun c => c ∈ columns df) vax_columns with
  | [] => Ok {| columns := []; rows := [] |}
  | avail => Ok {| columns := columns dfc;
                   rows := filter (complete avail) (rows dfc) |}
  end.
Proof.
  intros Hcols. unfold df_vax.
  destruct (filter (fun c => c ∈ columns df) vax_columns) as [|k ks] eqn:E;
    [reflexivity|].
  apply dropna_columns_present. rewrite <- E, Hcols.
  apply Forall_forall. intros c Hc. by apply list_elem_of_filter in Hc as [? _].
Qed.

(** ** Exact arithmetic on integers *)

Lemma iter_pos_iter {A} (f : A -> A) n : forall x,
  SpecFloat.iter_pos f n x = Pos.iter f x n.
Proof.
  induction n as [n IH|n IH|]; intros x; simpl; [| |done].
  - rewrite !IH. by rewrite !Pos.iter_swap.
  - by rewrite !IH.
Qed.

Lemma Zpos_iter_xO m k : Zpos (Pos.iter xO m k) = Zpos m * 2 ^ Zpos k.
Proof.
  induction k as [|k IH] using Pos.peano_ind.
  - simpl. lia.
  - rewrite Pos.iter_succ, Pos2Z.inj_xO, IH, Pos2Z.inj_succ, Z.pow_succ_r by lia. lia.
Qed.

Lemma digits2_iter_xO m k :
  Zpos (digits2_pos (Pos.iter xO m k)) = Zpos (digits2_pos m) + Zpos k.
Proof.
  induction k as [|k IH] using Pos.peano_ind.
  - simpl. lia.
  - rewrite Pos.iter_succ. simpl. lia.
Qed.

Lemma iter_shr_1_xO m k :
  Pos.iter shr_1 {| shr_m := Zpos (Pos.iter xO m k); shr_r := false; shr_s := false |} k
  = {| shr_m := Zpos m; shr_r := false; shr_s := false |}.
Proof.
  revert m. induction k as [|k IH] using Pos.peano_ind; intros m.
  - reflexivity.
  - rewrite (Pos.iter_succ k _ xO), (Pos.iter_succ_r k _ shr_1). simpl. apply IH.
Qed.

Lemma digits2_pos_le n : forall k, Zpos n < 2 ^ k -> 0 <= k -> Zpos (digits2_pos n) <= k.
Proof.
  induction n as [n IH|n IH|]; intros k Hn Hk; simpl.
  - assert (k <> 0) by (intros ->; simpl in Hn; lia).
    replace k with (Z.succ (k - 1)) in Hn by lia. rewrite Z.pow_succ_r in Hn by lia.
    specialize (IH (k - 1)). lia.
  - assert (k <> 0) by (intros ->; simpl in Hn; lia).
    replace k with (Z.succ (k - 1)) in Hn by lia. rewrite Z.pow_succ_r in Hn by lia.
    specialize (IH (k - 1)). lia.
  - assert (k <> 0) by (intros ->; simpl in Hn; lia). lia.
Qed.

Lemma digits2_pos_gt n : Zpos n < 2 ^ Zpos (digits2_pos n).
Proof.
  induction n as [n IH|n IH|]; simpl; [| |done].
  - rewrite Pos2Z.inj_succ, Z.pow_succ_r by lia. lia.
  - rewrite Pos2Z.inj_succ, Z.pow_succ_r by lia. lia.
Qed.

Lemma shr_fexp_canonical mc ec :
  Zpos (digits2_pos mc) = 53 -> -1074 <= ec <= 971 ->
  shr_fexp prec emax (Zpos mc) ec loc_Exact
  = ({| shr_m := Zpos mc; shr_r := false; shr_s := false |}, ec).
Proof.
  intros Hd He. unfold shr_fexp, Zdigits2. rewrite Hd.
  replace (fexp prec emax (53 + ec) - ec) with 0
    by (unfold fexp, emin, prec, emax; lia).
  reflexivity.
Qed.

Lemma round_canonical s mc ec :
  Zpos (digits2_pos mc) = 53 -> -1074 <= ec <= 971 ->
  (let '(mrs'', e'') := shr_fexp prec emax (Zpos mc) ec loc_Exact in
   match shr_m mrs'' with
   | 0 => S754_zero s
   | Z.pos m =>
       if e'' <=? emax - prec then S754_finite s m e'' else S754_infinity s
   | Z.neg _ => S754_nan
   end) = S754_finite s mc ec.
Proof.
  intros Hd He. rewrite shr_fexp_canonical by done. cbn [shr_m]. unfold prec, emax.
  destruct (Z.leb_spec ec (1024 - 53)); [done|lia].
Qed.

(** A mantissa of 53 bits with an exponent in range is left as it is. *)
Lemma binary_round_aux_canonical s mc ec :
  Zpos (digits2_pos mc) = 53 -> -1074 <= ec <= 971 ->
  binary_round_aux prec emax s (Zpos mc) ec loc_Exact = S754_finite s mc ec.
Proof.
  intros Hd He. unfold binary_round_aux.
  rewrite shr_fexp_canonical by done.
  cbn [shr_m loc_of_shr_record round_nearest_even].
  by apply round_canonical.
Qed.

(** Trailing zero bits beyond 53 are shifted out without rounding. *)
Lemma binary_round_aux_shr s mc ec k :
  Zpos (digits2_pos mc) = 53 -> -1074 <= ec <= 971 ->
  binary_round_aux prec emax s (Zpos (Pos.iter xO mc k)) (ec - Zpos k) loc_Exact
  = S754_finite s mc ec.
Proof.
  intros Hd He. unfold binary_round_aux.
  assert (shr_fexp prec emax (Zpos (Pos.iter xO mc k)) (ec - Zpos k) loc_Exact
          = ({| shr_m := Zpos mc; shr_r := false; shr_s := false |}, ec)) as Hs.
  { unfold shr_fexp, Zdigits2. rewrite digits2_iter_xO, Hd.
    replace (fexp prec emax (53 + Zpos k + (ec - Zpos k)) - (ec - Zpos k)) with (Zpos k)
      by (unfold fexp, emin, prec, emax; lia).
    unfold shr, shr_record_of_loc. rewrite iter_pos_iter, iter_shr_1_xO.
    f_equal. lia. }
  rewrite Hs. cbn [shr_m loc_of_shr_record round_nearest_even].
  by apply round_canonical.
Qed.

Lemma canon_spec n :
  Zpos n < 2 ^ 53 ->
  let '(mc, ec) := canon n in
  Zpos (digits2_pos mc) = 53 ∧ -52 <= ec <= 0 ∧ Zpos mc = Zpos n * 2 ^ (- ec).
Proof.
  intros Hn. unfold canon.
  pose proof (digits2_pos_le n 53 Hn ltac:(lia)) as Hd.
  set (d := 53 - Zpos (digits2_pos n)).
  assert (0 <= d <= 52) as Hdr by (subst d; lia).
  assert (0 < 2 ^ d) by (apply Z.pow_pos_nonneg; lia).
  assert (Zpos (Z.to_pos (Zpos n * 2 ^ d)) = Zpos n * 2 ^ d) as Hm
    by (rewrite Z2Pos.id; lia).
  split; [|split; [lia|]].
  - destruct (decide (d = 0)) as [Hz|Hz].
    + rewrite Hz. simpl Z.pow. rewrite Z.mul_1_r. simpl Z.to_pos. lia.
    + assert (Z.to_pos (Zpos n * 2 ^ d) = Pos.iter xO n (Z.to_pos d)) as ->.
      { apply Pos2Z.inj. rewrite Hm, Zpos_iter_xO, Z2Pos.id by lia. done. }
      rewrite digits2_iter_xO, Z2Pos.id by lia. lia.
  - rewrite Hm. f_equal. f_equal. lia.
Qed.

(** Rounding a positive integer below [2^53], given with any scaling by a
    power of two, yields its canonical form. *)
Lemma binary_round_int s n M E :
  Zpos n < 2 ^ 53 -> E <= 0 -> Zpos M = Zpos n * 2 ^ (- E) ->
  binary_round prec emax s M E = S754_finite s (canon n).1 (canon n).2.
Proof.
  intros Hn HE HM. pose proof (canon_spec n Hn) as Hc.
  destruct (canon n) as [mc ec]. destruct Hc as (Hd & Hec & Hmc). simpl.
  unfold binary_round, shl_align.
  destruct (Z.compare_spec E ec) as [Heq|Hlt|Hgt].
  - subst E. assert (M = mc) as -> by (apply Pos2Z.inj; lia).
    rewrite Hd. replace (fexp prec emax (53 + ec) - ec) with 0
      by (unfold fexp, emin, prec, emax; lia).
    apply binary_round_aux_canonical; [done|lia].
  - assert (M = Pos.iter xO mc (Z.to_pos (ec - E))) as ->.
    { apply Pos2Z.inj. rewrite Zpos_iter_xO, Z2Pos.id, HM, Hmc by lia.
      rewrite <- Z.mul_assoc, <- Z.pow_add_r by lia. f_equal. f_equal. lia. }
    rewrite digits2_iter_xO, Hd, Z2Pos.id by lia.
    replace (fexp prec emax (53 + (ec - E) + E) - E) with (Zpos (Z.to_pos (ec - E)))
      by (rewrite Z2Pos.id by lia; unfold fexp, emin, prec, emax; lia).
    replace E with (ec - Zpos (Z.to_pos (ec - E))) at 2 by (rewrite Z2Pos.id; lia).
    apply binary_round_aux_shr; [done|lia].
  - assert (mc = Pos.iter xO M (Z.to_pos (E - ec))) as Hmc'.
    { apply Pos2Z.inj. rewrite Zpos_iter_xO, Z2Pos.id, HM, Hmc by lia.
      rewrite <- Z.mul_assoc, <- Z.pow_add_r by lia. f_equal. f_equal. lia. }
    assert (Zpos (digits2_pos M) = 53 - (E - ec)) as HdM.
    { rewrite Hmc', digits2_iter_xO, Z2Pos.id in Hd by lia. lia. }
    rewrite HdM.
    replace (fexp prec emax (53 - (E - ec) + E) - E) with (Zneg (Z.to_pos (E - ec))).
    2:{ rewrite <- Pos2Z.opp_pos, Z2Pos.id by lia. unfold fexp, emin, prec, emax. lia. }
    rewrite <- Hmc'.
    replace (fexp prec emax (53 - (E - ec) + E)) with ec
      by (unfold fexp, emin, prec, emax; lia).
    apply binary_round_aux_canonical; [done|lia].
Qed.

Lemma binary_normalize_int z M E :
  Z.abs z < 2 ^ 53 -> E <= 0 -> M = z * 2 ^ (- E) ->
  binary_normalize prec emax M E false = of_Z z.
Proof.
  intros Hz HE ->. unfold of_Z.
  assert (0 < 2 ^ (- E)) as Hp by (apply Z.pow_pos_nonneg; lia).
  destruct z as [|n|n]; simpl Z.mul.
  - reflexivity.
  - destruct (Zpos n * 2 ^ (- E)) as [|M|M] eqn:HM; try lia.
    unfold binary_normalize.
    rewrite (binary_round_int false n M E), (binary_round_int false n n 0);
      try done; try lia.
  - destruct (Zneg n * 2 ^ (- E)) as [|M|M] eqn:HM; try lia.
    unfold binary_normalize.
    rewrite (binary_round_int true n M E), (binary_round_int true n n 0);
      try done; try lia.
Qed.

(** The float of a non-zero integer below [2^53] in magnitude. *)
Lemma of_Z_finite z :
  z <> 0 -> Z.abs z < 2 ^ 53 ->
  of_Z z = S754_finite (z <? 0) (canon (Z.to_pos (Z.abs z))).1
             (canon (Z.to_pos (Z.abs z))).2.
Proof.
  intros Hz Hb. unfold of_Z.
  destruct z as [|n|n]; [done| |]; unfold binary_normalize; simpl Z.abs; simpl Z.to_pos.
  - rewrite (binary_round_int false n n 0); try done; simpl in *; lia.
  - rewrite (binary_round_int true n n 0); try done; simpl in *; lia.
Qed.

Lemma of_Z_0 : of_Z 0 = zero.
Proof. reflexivity. Qed.

Lemma cond_Zopp_abs z k : cond_Zopp (z <? 0) (Z.abs z * k) = z * k.
Proof. destruct z; simpl; lia. Qed.

Lemma shl_align_value m e e' :
  e' <= e -> Zpos (shl_align m e e').1 = Zpos m * 2 ^ (e - e').
Proof.
  intros H. unfold shl_align.
  destruct (e' - e) as [|d|d] eqn:E; try lia.
  - replace (e - e') with 0 by lia. simpl. lia.
  - simpl. rewrite Zpos_iter_xO. f_equal. f_equal. lia.
Qed.

(** The mantissa of one operand of a sum, aligned and signed. *)
Lemma aligned_value z ez :
  z <> 0 -> Z.abs z < 2 ^ 53 ->
  let c := canon (Z.to_pos (Z.abs z)) in
  ez <= c.2 ->
  cond_Zopp (z <? 0) (Zpos (shl_align c.1 c.2 ez).1) = z * 2 ^ (- ez).
Proof.
  intros Hz Hb c Hez.
  pose proof (canon_spec (Z.to_pos (Z.abs z))) as Hc. fold c in Hc.
  destruct c as [mc ec]. simpl in *.
  rewrite Z2Pos.id in Hc by lia. destruct (Hc Hb) as (_ & Hec & Hmc).
  rewrite shl_align_value, Hmc by done.
  rewrite <- Z.mul_assoc, <- Z.pow_add_r by lia.
  replace (- ec + (ec - ez)) with (- ez) by lia.
  apply cond_Zopp_abs.
Qed.

(** Sums and differences of integers are exact while they stay below
    [2^53]. *)
Lemma add_of_Z a b :
  Z.abs a < 2 ^ 53 -> Z.abs b < 2 ^ 53 -> Z.abs (a + b) < 2 ^ 53 ->
  add (of_Z a) (of_Z b) = of_Z (a + b).
Proof.
  intros Ha Hb Hab.
  destruct (decide (a = 0)) as [->|Hna].
  { rewrite Z.add_0_l. destruct (decide (b = 0)) as [->|Hnb]; [reflexivity|].
    by rewrite (of_Z_finite b). }
  destruct (decide (b = 0)) as [->|Hnb].
  { rewrite Z.add_0_r. by rewrite (of_Z_finite a). }
  rewrite (of_Z_finite a), (of_Z_finite b) by done.
  unfold add, SFadd.
  pose proof (canon_spec (Z.to_pos (Z.abs a))) as Hca.
  pose proof (canon_spec (Z.to_pos (Z.abs b))) as Hcb.
  rewrite Z2Pos.id in Hca, Hcb by lia.
  pose proof (aligned_value a) as Ha'. pose proof (aligned_value b) as Hb'.
  destruct (canon (Z.to_pos (Z.abs a))) as [ma ea].
  destruct (canon (Z.to_pos (Z.abs b))) as [mb eb].
  simpl in *. destruct (Hca Ha) as (_ & Hea & _), (Hcb Hb) as (_ & Heb & _).
  rewrite (Ha' (Z.min ea eb)), (Hb' (Z.min ea eb)) by (try done; lia).
  apply binary_normalize_int; [done|lia|lia].
Qed.

Lemma sub_of_Z a b :
  Z.abs a < 2 ^ 53 -> Z.abs b < 2 ^ 53 -> Z.abs (a - b) < 2 ^ 53 ->
  sub (of_Z a) (of_Z b) = of_Z (a - b).
Proof.
  intros Ha Hb Hab.
  destruct (decide (b = 0)) as [->|Hnb].
  { rewrite Z.sub_0_r. destruct (decide (a = 0)) as [->|Hna]; [reflexivity|].
    by rewrite (of_Z_finite a). }
  destruct (decide (a = 0)) as [->|Hna].
  { rewrite Z.sub_0_l.
    rewrite (of_Z_finite b), (of_Z_finite (- b)) by (try done; lia).
    rewrite Z.abs_opp. simpl. f_equal. destruct b; done. }
  rewrite (of_Z_finite a), (of_Z_finite b) by done.
  unfold sub, SFsub.
  pose proof (canon_spec (Z.to_pos (Z.abs a))) as Hca.
  pose proof (canon_spec (Z.to_pos (Z.abs b))) as Hcb.
  rewrite Z2Pos.id in Hca, Hcb by lia.
  pose proof (aligned_value a) as Ha'. pose proof (aligned_value b) as Hb'.
  destruct (canon (Z.to_pos (Z.abs a))) as [ma ea].
  destruct (canon (Z.to_pos (Z.abs b))) as [mb eb].
  simpl in *. destruct (Hca Ha) as (_ & Hea & _), (Hcb Hb) as (_ & Heb & _).
  rewrite (Ha' (Z.min ea eb)), (Hb' (Z.min ea eb)) by (try done; lia).
  apply binary_normalize_int; [done|lia|lia].
Qed.

Lemma opp_of_Z z : z <> 0 -> Z.abs z < 2 ^ 53 -> opp (of_Z z) = of_Z (- z).
Proof.
  intros Hz Hb. rewrite (of_Z_finite z), (of_Z_finite (- z)) by (try done; lia).
  rewrite Z.abs_opp. simpl. f_equal. destruct z; done.
Qed.

Lemma signbit_of_Z z : Z.abs z < 2 ^ 53 -> signbit (of_Z z) = (z <? 0).
Proof.
  intros Hb. destruct (decide (z = 0)) as [->|Hz]; [reflexivity|].
  by rewrite of_Z_finite.
Qed.

Lemma isnull_of_Z z : Z.abs z < 2 ^ 53 -> isnull (of_Z z) = false.
Proof.
  intros Hb. destruct (decide (z = 0)) as [->|Hz]; [reflexivity|].
  by rewrite of_Z_finite.
Qed.

Lemma to_Z_of_Z z : Z.abs z < 2 ^ 53 -> to_Z (of_Z z) = z.
Proof.
  intros Hb. destruct (decide (z = 0)) as [->|Hz]; [reflexivity|].
  rewrite of_Z_finite by done.
  pose proof (canon_spec (Z.to_pos (Z.abs z))) as Hc.
  rewrite Z2Pos.id in Hc by lia.
  destruct (canon (Z.to_pos (Z.abs z))) as [mc ec]. simpl.
  destruct (Hc Hb) as (_ & Hec & ->).
  rewrite Z.shiftl_div_pow2 by lia.
  rewrite Z.div_mul by (apply Z.pow_nonzero; lia).
  destruct z; simpl; lia.
Qed.

(** Equality of floats that hold integers. *)
Lemma float_eq_finite s1 m1 e1 s2 m2 e2 :
  float_eq (S754_finite s1 m1 e1) (S754_finite s2 m2 e2) = true ->
  s1 = s2 ∧ m1 = m2 ∧ e1 = e2.
Proof.
  unfold float_eq, SFeqb, SFcompare.
  destruct s1, s2; try done;
    destruct (Z.compare_spec e1 e2); try done;
    change (Pos.compare_cont Eq m1 m2) with (m1 ?= m2)%positive;
    destruct (Pos.compare_spec m1 m2); try done; intros _; by subst.
Qed.

Lemma float_eq_of_Z a b :
  Z.abs a < 2 ^ 53 -> Z.abs b < 2 ^ 53 ->
  float_eq (of_Z a) (of_Z b) = true -> a = b.
Proof.
  intros Ha Hb H.
  destruct (decide (a = 0)) as [->|Hna], (decide (b = 0)) as [->|Hnb]; try done.
  - rewrite (of_Z_finite b) in H by done. simpl in H. by destruct (b <? 0).
  - rewrite (of_Z_finite a) in H by done. simpl in H. by destruct (a <? 0).
  - rewrite <- (to_Z_of_Z a), <- (to_Z_of_Z b) by done.
    rewrite (of_Z_finite a), (of_Z_finite b) in * by done.
    apply float_eq_finite in H as (-> & -> & ->). done.
Qed.

Lemma float_eq_refl x : isnull x = false -> float_eq x x = true.
Proof.
  destruct x as [s|s| |s m e]; try done; try by destruct s.
  intros _. unfold float_eq, SFeqb, SFcompare.
  change (Pos.compare_cont Eq m m) with (m ?= m)%positive.
  rewrite Z.compare_refl, Pos.compare_refl. by destruct s.
Qed.

Lemma float_eq_notnull x y : float_eq x y = true -> isnull x = false ∧ isnull y = false.
Proof. by destruct x, y. Qed.

(** The sign a rounding returns. *)
Lemma binary_round_aux_sign s m e l :
  match binary_round_aux prec emax s m e l with
  | S754_zero s' | S754_infinity s' | S754_finite s' _ _ => s' = s
  | S754_nan => True
  end.
Proof.
  unfold binary_round_aux.
  destruct (shr_fexp prec emax m e l) as [mrs' e'].
  destruct (shr_fexp prec emax _ e' loc_Exact) as [mrs'' e''].
  destruct (shr_m mrs''); [done| |done].
  by destruct (e'' <=? emax - prec).
Qed.

(** A quotient by a positive integer has the sign of the dividend. *)
Lemma div_of_Z_sign a k :
  Z.abs a < 2 ^ 53 -> 0 < k < 2 ^ 53 ->
  (0 <= a -> float_lt (div (of_Z a) (of_Z k)) zero = false)
  ∧ (a <= 0 -> float_lt zero (div (of_Z a) (of_Z k)) = false).
Proof.
  intros Ha Hk. rewrite (of_Z_finite k) by lia.
  destruct (decide (a = 0)) as [->|Hna]; [by split|].
  rewrite (of_Z_finite a) by done.
  unfold div, SFdiv.
  destruct (SFdiv_core_binary _ _ _ _ _ _) as [[mz ez] lz].
  pose proof (binary_round_aux_sign (xorb (a <? 0) (k <? 0)) mz ez lz) as Hs.
  replace (k <? 0) with false in Hs |- * by (symmetry; apply Z.ltb_ge; lia).
  rewrite xorb_false_r in Hs |- *.
  destruct (binary_round_aux _ _ _ _ _ _) as [s|s| |s m e]; try done; subst s;
    (split; intros H;
     [replace (a <? 0) with false by (symmetry; apply Z.ltb_ge; lia)
     |replace (a <? 0) with true by (symmetry; apply Z.ltb_lt; lia)]; done).
Qed.

Lemma binary_round_aux_int s n M E :
  Zpos n < 2 ^ 53 -> E <= (canon n).2 -> Zpos M = Zpos n * 2 ^ (- E) ->
  binary_round_aux prec emax s (Zpos M) E loc_Exact
  = S754_finite s (canon n).1 (canon n).2.
Proof.
  intros Hn HE HM. pose proof (canon_spec n Hn) as Hc.
  destruct (canon n) as [mc ec]. destruct Hc as (Hd & Hec & Hmc). simpl in *.
  destruct (decide (E = ec)) as [->|Hne].
  - assert (M = mc) as -> by (apply Pos2Z.inj; lia).
    apply binary_round_aux_canonical; [done|lia].
  - assert (M = Pos.iter xO mc (Z.to_pos (ec - E))) as ->.
    { apply Pos2Z.inj. rewrite Zpos_iter_xO, Z2Pos.id, HM, Hmc by lia.
      rewrite <- Z.mul_assoc, <- Z.pow_add_r by lia. f_equal. f_equal. lia. }
    set (k := Z.to_pos (ec - E)).
    replace E with (ec - Zpos k) by (subst k; rewrite Z2Pos.id; lia).
    apply binary_round_aux_shr; [done|lia].
Qed.

Lemma div_eucl_div_mod a b : Z.div_eucl a b = (a / b, a mod b).
Proof. unfold Z.div, Z.modulo. by destruct (Z.div_eucl a b). Qed.

Lemma canon_exponent n : (canon n).2 = Zpos (digits2_pos n) - 53.
Proof. unfold canon. simpl. lia. Qed.

(** The quotient of a multiple is exact. *)
Lemma div_of_Z_exact k z :
  0 < k < 2 ^ 53 -> Z.abs (k * z) < 2 ^ 53 -> div (of_Z (k * z)) (of_Z k) = of_Z z.
Proof.
  intros [Hk Hk'] Hb.
  assert (Z.abs z < 2 ^ 53) as Hz.
  { rewrite Z.abs_mul, (Z.abs_eq k) in Hb by lia.
    pose proof (Z.abs_nonneg z). nia. }
  destruct (decide (z = 0)) as [->|Hnz].
  { rewrite Z.mul_0_r, (of_Z_finite k) by lia.
    replace (k <? 0) with false by (symmetry; apply Z.ltb_ge; lia). reflexivity. }
  rewrite (of_Z_finite (k * z)), (of_Z_finite k), (of_Z_finite z) by (try done; lia).
  set (n1 := Z.to_pos (Z.abs (k * z))). set (n2 := Z.to_pos (Z.abs k)).
  set (nz := Z.to_pos (Z.abs z)).
  assert (Zpos n1 = k * Z.abs z) as Hn1 by (subst n1; rewrite Z2Pos.id; nia).
  assert (Zpos n2 = k) as Hn2 by (subst n2; rewrite Z2Pos.id; lia).
  assert (Zpos nz = Z.abs z) as Hnz' by (subst nz; rewrite Z2Pos.id; lia).
  pose proof (canon_spec n1 ltac:(lia)) as H1.
  pose proof (canon_spec n2 ltac:(lia)) as H2.
  pose proof (canon_exponent n1) as He1. pose proof (canon_exponent n2) as He2.
  pose proof (canon_exponent nz) as Hez.
  assert (Zpos (digits2_pos n1) <= Zpos (digits2_pos n2) + Zpos (digits2_pos nz)) as Hd.
  { apply digits2_pos_le; [|lia].
    pose proof (digits2_pos_gt n2). pose proof (digits2_pos_gt nz).
    rewrite Z.pow_add_r by lia. nia. }
  destruct (canon n1) as [m1 e1], (canon n2) as [m2 e2].
  destruct H1 as (Hd1 & Hr1 & Hm1), H2 as (Hd2 & Hr2 & Hm2). simpl in He1, He2.
  unfold div, SFdiv. cbn [fst snd].
  set (E := e1 - e2 - 53).
  assert (SFdiv_core_binary prec emax (Zpos m1) e1 (Zpos m2) e2
          = (Zpos (Z.to_pos (Z.abs z * 2 ^ (- E))), E, loc_Exact)) as ->.
  { unfold SFdiv_core_binary, Zdigits2. rewrite Hd1, Hd2.
    replace (Z.min (fexp prec emax (53 + e1 - (53 + e2))) (e1 - e2)) with E
      by (unfold fexp, emin, prec, emax; lia).
    replace (e1 - e2 - E) with 53 by lia.
    rewrite Z.shiftl_mul_pow2 by lia.
    rewrite div_eucl_div_mod.
    assert (0 < 2 ^ (- e1) ∧ 0 < 2 ^ (- e2) ∧ 0 < 2 ^ (- E)) as (? & ? & ?)
      by (repeat split; apply Z.pow_pos_nonneg; lia).
    assert (Zpos m1 * 2 ^ 53 = Z.abs z * 2 ^ (- E) * Zpos m2) as ->.
    { rewrite Hm1, Hm2, Hn1, Hn2.
      replace (- E) with (- e1 + (53 + e2)) by (subst E; lia).
      replace (2 ^ 53) with (2 ^ (53 + e2) * 2 ^ (- e2))
        by (rewrite <- Z.pow_add_r by lia; f_equal; lia).
      rewrite (Z.pow_add_r 2 (- e1) (53 + e2)) by lia. ring. }
    rewrite Z.div_mul, Z.mod_mul by lia.
    rewrite Z2Pos.id by nia.
    unfold new_location, new_location_even, new_location_odd. simpl.
    by destruct m2. }
  replace (k <? 0) with false by (symmetry; apply Z.ltb_ge; lia).
  rewrite xorb_false_r.
  replace (k * z <? 0) with (z <? 0)
    by (destruct (Z.ltb_spec z 0), (Z.ltb_spec (k * z) 0); try done; nia).
  apply binary_round_aux_int; [lia| |].
  - rewrite Hez. subst E. lia.
  - rewrite Z2Pos.id, Hnz'; [done|].
    assert (0 < 2 ^ (- E)) by (apply Z.pow_pos_nonneg; subst E; lia). nia.
Qed.

(** ** The rolling average, position by position *)

Lemma most_recent_length w (buf : list float64) :
  length (most_recent w buf) = (w `min` length buf)%nat.
Proof. unfold most_recent. rewrite length_drop. lia. Qed.

Lemma most_recent_app w (a t : list float64) :
  most_recent w (most_recent w a ++ t) = most_recent w (a ++ t).
Proof.
  unfold most_recent. rewrite length_app, length_drop, length_app.
  destruct (decide (length a ≤ w)%nat) as [Hle|Hgt].
  - replace (length a - w)%nat with 0%nat by lia. simpl.
    by rewrite Nat.sub_0_r.
  - replace (length a - (length a - w) + length t - w)%nat with (length t) by lia.
    replace (length a + length t - w)%nat
      with ((length a - w) + length t)%nat by lia.
    rewrite <- (drop_drop (a ++ t)).
    by rewrite (drop_app_le a t (length a - w)) by lia.
Qed.

Lemma most_recent_snoc w (buf : list float64) x :
  (1 ≤ w)%nat ->
  most_recent w (buf ++ [x]) = drop (S (length buf) - w) buf ++ [x].
Proof.
  intros Hw. unfold most_recent. rewrite length_app. simpl.
  replace (length buf + 1 - w)%nat with (S (length buf) - w)%nat by lia.
  apply drop_app_le. lia.
Qed.

Lemma length_roll_from w values : forall st buf,
  length (roll_from w st buf values) = length values.
Proof. induction values as [|x s IH]; intros st buf; simpl; [done|]. by rewrite IH. Qed.

Lemma length_rolling_mean w s : length (rolling_mean w s) = length s.
Proof.
  unfold rolling_mean, roll_mean, prep_values.
  destruct s as [|x s]; [done|]. rewrite fmap_cons.
  rewrite length_roll_from. simpl. by rewrite length_fmap.
Qed.

Lemma roll_from_app w s t : forall st buf,
  exists st' buf', roll_from w st buf (s ++ t)
                   = roll_from w st buf s ++ roll_from w st' buf' t.
Proof.
  induction s as [|x s IH]; intros st buf; simpl.
  - by exists st, buf.
  - edestruct IH as (st' & buf' & ->). by exists st', buf'.
Qed.

Lemma rolling_mean_prefix w s t :
  rolling_mean w s `prefix_of` rolling_mean w (s ++ t).
Proof.
  unfold rolling_mean, roll_mean, prep_values. rewrite fmap_app.
  destruct s as [|x s]; [apply prefix_nil|]. rewrite fmap_cons, <- app_comm_cons.
  rewrite app_comm_cons.
  edestruct (roll_from_app w) as (st' & buf' & ->). by apply prefix_app_r.
Qed.

(** An invariant of the running state is an invariant of every output. *)
Section Invariant.

Variable w : nat.
Variable P : MeanState -> list float64 -> Prop.
Variable Q : float64 -> Prop.
Hypothesis window_size : (2 ≤ w)%nat.
Hypothesis remove_inv : forall st v rest,
  P st (v :: rest) -> P (remove_mean v st) rest.
Hypothesis add_inv : forall st v rest,
  (length rest < w)%nat -> Q v -> P st rest -> P (add_mean v st) (rest ++ [v]).

Lemma remove_all_inv l : forall st rest,
  P st (l ++ rest) -> P (foldl (fun st v => remove_mean v st) st l) rest.
Proof.
  induction l as [|v l IH]; intros st rest H; simpl; [done|].
  apply IH. by apply remove_inv.
Qed.

Lemma roll_from_inv values : forall st buf i,
  (length buf ≤ w)%nat -> P st buf ->
  Forall Q (take (S i) values) -> (i < length values)%nat ->
  exists st', P st' (most_recent w (buf ++ take (S i) values))
    ∧ roll_from w st buf values !! i = Some (calc_mean (Z.of_nat w) st').
Proof.
  induction values as [|val rest IH]; intros st buf i Hlen HP HQ Hi; simpl in Hi; [lia|].
  rewrite firstn_cons in HQ. apply Forall_cons in HQ as [Hval HQ].
  cbn [roll_from]. rewrite decide_False by lia.
  set (st' := add_mean val _).
  assert (P st' (most_recent w (buf ++ [val]))) as HP'.
  { rewrite most_recent_snoc by lia. subst st'.
    apply add_inv; [rewrite length_drop; lia|done|].
    apply remove_all_inv. by rewrite take_drop. }
  destruct i as [|i].
  - exists st'. change (take 1 (val :: rest)) with [val]. split; [done|done].
  - destruct (IH st' (most_recent w (buf ++ [val])) i) as (st'' & HP'' & Hout);
      [rewrite most_recent_length; lia|done|done|lia|].
    exists st''. split; [|done].
    rewrite most_recent_app, <- app_assoc in HP''. done.
Qed.

End Invariant.

(** ** The number of observations in the window *)

Lemma count_valid_cons v buf :
  count_valid (v :: buf) = (if notnull v then 1 else 0) + count_valid buf.
Proof.
  unfold count_valid. rewrite filter_cons.
  destruct (decide (notnull v = true)) as [H|H].
  - rewrite H. simpl. lia.
  - apply not_true_is_false in H. rewrite H. lia.
Qed.

Lemma count_valid_snoc v buf :
  count_valid (buf ++ [v]) = count_valid buf + (if notnull v then 1 else 0).
Proof.
  unfold count_valid. rewrite filter_app, length_app, filter_cons.
  destruct (decide (notnull v = true)) as [H|H].
  - rewrite H. simpl. lia.
  - apply not_true_is_false in H. rewrite H. simpl. lia.
Qed.

Lemma nobs_remove v st : nobs (remove_mean v st) = nobs st - (if notnull v then 1 else 0).
Proof. unfold remove_mean. destruct (notnull v); simpl; lia. Qed.

Lemma nobs_add v st : nobs (add_mean v st) = nobs st + (if notnull v then 1 else 0).
Proof. unfold add_mean. destruct (notnull v); simpl; lia. Qed.

Lemma calc_mean_short minp st : nobs st < minp -> calc_mean minp st = nan.
Proof.
  intros H. unfold calc_mean.
  destruct (Z.leb_spec minp (nobs st)); [lia|done].
Qed.

(** The state counts the observations of the window. *)
Lemma roll_from_nobs w values i first :
  (2 ≤ w)%nat -> (i < length values)%nat ->
  exists st', nobs st' = count_valid (window_at w i values)
    ∧ roll_from w (setup first) [] values !! i = Some (calc_mean (Z.of_nat w) st').
Proof.
  intros Hw Hi.
  destruct (roll_from_inv w (fun st buf => nobs st = count_valid buf) (fun _ => True)
              Hw) with (values := values) (st := setup first) (buf := @nil float64) (i := i)
    as (st' & H1 & H2); try done.
  - intros st v rest H. rewrite nobs_remove, H, count_valid_cons. lia.
  - intros st v rest _ _ H. rewrite nobs_add, H, count_valid_snoc. lia.
  - simpl; lia.
  - by apply Forall_true.
  - by exists st'.
Qed.

Lemma roll_mean_lookup_nobs w values i :
  (2 ≤ w)%nat -> (i < length values)%nat ->
  exists st', nobs st' = count_valid (window_at w i values)
    ∧ roll_mean w values !! i = Some (calc_mean (Z.of_nat w) st').
Proof.
  intros Hw Hi. unfold roll_mean. destruct values as [|first rest]; [simpl in Hi; lia|].
  by apply roll_from_nobs.
Qed.

Lemma window_at_prep w i s :
  window_at w i (prep_values s) = prep_values (window_at w i s).
Proof.
  unfold window_at, most_recent, prep_values.
  by rewrite <- fmap_take, fmap_drop, !length_fmap.
Qed.

Lemma count_valid_prep buf :
  count_valid (prep_values buf)
  = Z.of_nat (length (filter (fun x => valid x = true) buf)).
Proof.
  unfold count_valid, prep_values. f_equal.
  induction buf as [|x buf IH]; [done|]. rewrite fmap_cons, !filter_cons.
  destruct x as [s|s| |s m e]; simpl; try done; by rewrite IH.
Qed.

(** A window with fewer than [w] finite observations has no mean. *)
Lemma rolling_mean_few w s i :
  (2 ≤ w)%nat -> (i < length s)%nat ->
  (length (filter (fun x => valid x = true) (window_at w i s)) < w)%nat ->
  rolling_mean w s !! i = Some nan.
Proof.
  intros Hw Hi Hfew. unfold rolling_mean.
  destruct (roll_mean_lookup_nobs w (prep_values s) i Hw) as (st' & Hn & ->).
  { unfold prep_values. by rewrite length_fmap. }
  rewrite calc_mean_short; [done|].
  rewrite Hn, window_at_prep, count_valid_prep. by apply Nat2Z.inj_lt.
Qed.

(** ** Exact windows *)

Lemma count_bound_lt : 7 * count_bound < 2 ^ 53.
Proof. reflexivity. Qed.

Lemma isnull_nan x : isnull x = true -> x = nan.
Proof. by destruct x. Qed.

Lemma counted_cases x :
  counted x ->
  (x = nan ∧ to_Z x = 0 ∧ notnull x = false)
  ∨ (exists z, x = of_Z z ∧ to_Z x = z ∧ Z.abs z <= count_bound ∧ notnull x = true
       ∧ signbit x = (z <? 0)).
Proof.
  intros [Hn|[Hx Hb]].
  - left. apply isnull_nan in Hn. by subst.
  - right. pose proof count_bound_lt.
    assert (Z.abs (to_Z x) < 2 ^ 53) as Hb' by lia.
    exists (to_Z x). split; [done|]. split; [done|]. split; [done|]. split.
    + unfold notnull. rewrite Hx. by rewrite isnull_of_Z.
    + rewrite Hx at 1. by apply signbit_of_Z.
Qed.

Lemma int_sum_cons v buf : int_sum (v :: buf) = to_Z v + int_sum buf.
Proof. reflexivity. Qed.

Lemma int_sum_snoc v buf : int_sum (buf ++ [v]) = int_sum buf + to_Z v.
Proof.
  unfold int_sum. rewrite fmap_app, foldr_app. simpl.
  induction (to_Z <$> buf) as [|z l IH]; simpl; lia.
Qed.

Lemma int_sum_bound buf :
  Forall counted buf -> Z.abs (int_sum buf) <= count_bound * Z.of_nat (length buf).
Proof.
  induction 1 as [|x l Hx _ IH]; [unfold int_sum; simpl; lia|].
  rewrite int_sum_cons. cbn [length]. rewrite Nat2Z.inj_succ.
  destruct (counted_cases x Hx) as [(_ & Hz & _)|(z & _ & Hz & Hb & _)];
    unfold count_bound in *; lia.
Qed.

Lemma count_neg_cons v buf :
  count_neg (v :: buf) = (if notnull v && signbit v then 1 else 0) + count_neg buf.
Proof.
  unfold count_neg. rewrite filter_cons.
  destruct (decide (notnull v && signbit v = true)) as [H|H].
  - rewrite H. simpl. lia.
  - apply not_true_is_false in H. rewrite H. lia.
Qed.

Lemma count_neg_snoc v buf :
  count_neg (buf ++ [v]) = count_neg buf + (if notnull v && signbit v then 1 else 0).
Proof.
  unfold count_neg. rewrite filter_app, length_app, filter_cons.
  destruct (decide (notnull v && signbit v = true)) as [H|H].
  - rewrite H. simpl. lia.
  - apply not_true_is_false in H. rewrite H. simpl. lia.
Qed.

Lemma count_neg_le buf : 0 <= count_neg buf <= count_valid buf.
Proof.
  induction buf as [|v buf IH]; [done|].
  rewrite count_neg_cons, count_valid_cons.
  destruct (notnull v), (signbit v); simpl; lia.
Qed.

Lemma count_valid_le buf : 0 <= count_valid buf <= Z.of_nat (length buf).
Proof.
  unfold count_valid. pose proof (length_filter (fun x => notnull x = true) buf). lia.
Qed.

Lemma no_negative_sum buf :
  Forall counted buf -> count_neg buf = 0 -> 0 <= int_sum buf.
Proof.
  induction 1 as [|x l Hx _ IH]; [by unfold int_sum|].
  rewrite count_neg_cons, int_sum_cons. pose proof (count_neg_le l).
  destruct (counted_cases x Hx) as [(_ & -> & ->)|(z & _ & -> & _ & -> & ->)];
    simpl; [lia|].
  destruct (Z.ltb_spec z 0); lia.
Qed.

Lemma all_negative_sum buf :
  Forall counted buf -> count_neg buf = count_valid buf -> int_sum buf <= 0.
Proof.
  induction 1 as [|x l Hx _ IH]; [by unfold int_sum|].
  rewrite count_neg_cons, count_valid_cons, int_sum_cons. pose proof (count_neg_le l).
  destruct (counted_cases x Hx) as [(_ & -> & ->)|(z & _ & -> & _ & -> & ->)];
    simpl; [lia|].
  destruct (Z.ltb_spec z 0); lia.
Qed.

(** One compensated addition and one compensated removal, on integers. *)
Lemma kahan_add S z :
  Z.abs S < 2 ^ 53 -> Z.abs z < 2 ^ 53 -> Z.abs (S + z) < 2 ^ 53 ->
  let y := sub (of_Z z) zero in
  let t := add (of_Z S) y in
  t = of_Z (S + z) ∧ sub (sub t (of_Z S)) y = zero.
Proof.
  intros HS Hz HSz y t.
  assert (y = of_Z z) as Hy.
  { subst y. change zero with (of_Z 0). rewrite sub_of_Z by (simpl; lia).
    by rewrite Z.sub_0_r. }
  assert (t = of_Z (S + z)) as Ht by (subst t; rewrite Hy; by apply add_of_Z).
  split; [done|]. rewrite Ht, Hy.
  rewrite sub_of_Z by (try done; lia).
  replace (S + z - S) with z by lia.
  rewrite sub_of_Z by (try done; lia). by rewrite Z.sub_diag.
Qed.

Lemma kahan_remove S z :
  Z.abs S < 2 ^ 53 -> Z.abs z < 2 ^ 53 -> Z.abs (S - z) < 2 ^ 53 ->
  let y := sub (opp (of_Z z)) zero in
  let t := add (of_Z S) y in
  t = of_Z (S - z) ∧ sub (sub t (of_Z S)) y = zero.
Proof.
  intros HS Hz HSz y t.
  destruct (decide (z = 0)) as [->|Hnz].
  - assert (y = S754_zero true) as Hy by reflexivity.
    assert (t = of_Z S) as Ht.
    { subst t. rewrite Hy. destruct (decide (S = 0)) as [->|HnS]; [reflexivity|].
      by rewrite (of_Z_finite S). }
    rewrite Z.sub_0_r. split; [done|]. rewrite Ht, Hy.
    rewrite sub_of_Z by (try done; lia). by rewrite Z.sub_diag.
  - assert (y = of_Z (- z)) as Hy.
    { subst y. rewrite opp_of_Z by done. change zero with (of_Z 0).
      rewrite sub_of_Z by (simpl; lia). by rewrite Z.sub_0_r. }
    assert (t = of_Z (S - z)) as Ht.
    { subst t. rewrite Hy, add_of_Z by (try done; lia). done. }
    split; [done|]. rewrite Ht, Hy.
    rewrite sub_of_Z by (try done; lia).
    replace (S - z - S) with (- z) by lia.
    rewrite sub_of_Z by (try done; lia). by rewrite Z.sub_diag.
Qed.

Lemma remove_exact st v rest :
  exact_state st (v :: rest) -> exact_state (remove_mean v st) rest.
Proof.
  intros (Hall & Hlen & Hn & Hneg & Hsum & Hca & Hcr & Hprev & Hnum & Hrun).
  apply Forall_cons in Hall as [Hv Hall]. simpl in Hlen.
  rewrite count_valid_cons in Hn. rewrite count_neg_cons in Hneg.
  rewrite int_sum_cons in Hsum.
  pose proof (int_sum_bound rest Hall) as Hb. pose proof count_bound_lt as Hbl.
  unfold remove_mean.
  destruct (counted_cases v Hv) as [(-> & Hz & Hnn)|(z & -> & Hz & Hbz & Hnn & Hsg)];
    rewrite Hnn in *.
  - simpl in *. repeat split; try done; try lia.
  - rewrite filter_cons_True in Hrun by done.
    rewrite reverse_cons in Hrun. rewrite Hsg, Hz in *.
    assert (Z.of_nat (length rest) <= 6) by lia.
    destruct (kahan_remove (z + int_sum rest) z) as [Ht Hc];
      [unfold count_bound in *; lia..|].
    cbv zeta in Ht, Hc. unfold exact_state.
    cbn [nobs sum_x neg_ct compensation_add compensation_remove
         num_consecutive_same_value prev_value].
    rewrite Hsum, Hcr, Hc, Ht.
    repeat split; try done; try lia.
    + destruct (z <? 0); simpl in *; lia.
    + f_equal. lia.
    + intros j x Hj. apply Hrun. by apply lookup_app_l_Some.
Qed.

Lemma add_exact st v rest :
  (length rest < 7)%nat -> counted v -> exact_state st rest ->
  exact_state (add_mean v st) (rest ++ [v]).
Proof.
  intros Hlt Hv (Hall & Hlen & Hn & Hneg & Hsum & Hca & Hcr & Hprev & Hnum & Hrun).
  pose proof (int_sum_bound rest Hall) as Hb. pose proof count_bound_lt as Hbl.
  assert (Forall counted (rest ++ [v])) as Hall'
    by (apply Forall_app; split; [done|by constructor]).
  assert (length (rest ++ [v]) ≤ 7)%nat as Hlen' by (rewrite length_app; simpl; lia).
  unfold add_mean.
  destruct (counted_cases v Hv) as [(-> & Hz & Hnn)|(z & -> & Hz & Hbz & Hnn & Hsg)];
    rewrite Hnn.
  - unfold exact_state.
    rewrite count_valid_snoc, count_neg_snoc, int_sum_snoc, filter_app. simpl.
    rewrite filter_cons_False, filter_nil, app_nil_r by done.
    repeat split; try done; try lia. rewrite Hsum. f_equal. lia.
  - unfold exact_state.
    rewrite count_valid_snoc, count_neg_snoc, int_sum_snoc, filter_app, Hnn, Hsg, Hz.
    rewrite filter_cons_True, filter_nil, reverse_app by done.
    assert (Z.of_nat (length rest) <= 6) by lia.
    destruct (kahan_add (int_sum rest) z) as [Ht Hc];
      [unfold count_bound in *; lia..|].
    cbv zeta in Ht, Hc.
    cbn [nobs sum_x neg_ct compensation_add compensation_remove
         num_consecutive_same_value prev_value].
    rewrite Hsum, Hca, Hc, Ht.
    repeat split; try done; try lia.
    + destruct (z <? 0); simpl in *; lia.
    + destruct (float_eq _ _); lia.
    + rewrite reverse_singleton. intros [|j] x Hj Hnumj; simpl in Hj; [congruence|].
      destruct (float_eq (of_Z z) (prev_value st)) eqn:Heq; [|lia].
      assert (of_Z z = prev_value st) as ->.
      { destruct (counted_cases _ Hprev) as [(Hp & _)|(z' & Hp & _ & Hbz' & _)].
        - rewrite Hp in Heq. by destruct (of_Z z).
        - rewrite Hp in *. f_equal. apply float_eq_of_Z; [lia..|done]. }
      apply (Hrun j); [done|lia].
Qed.

Lemma counted_prep x : is_count x = true -> counted (if is_inf x then nan else x).
Proof.
  unfold is_count, counted, valid, notnull.
  destruct x as [s|s| |s m e]; simpl; try (by left).
  - intros (H1 & H2)%andb_prop. right. split; [by apply bool_decide_eq_true_1 in H1|].
    by apply Z.leb_le.
  - intros (H1 & H2)%andb_prop. right. split; [by apply bool_decide_eq_true_1 in H1|].
    by apply Z.leb_le.
Qed.

Lemma int_sum_all_equal (buf : list float64) x :
  Forall (fun y => y = x) buf -> int_sum buf = Z.of_nat (length buf) * to_Z x.
Proof.
  induction 1 as [|y l -> _ IH]; [done|].
  rewrite int_sum_cons, IH. cbn [length]. lia.
Qed.

(** The value of a full window of integers. *)
Lemma calc_mean_exact st buf :
  exact_state st buf -> length buf = 7%nat ->
  Forall (fun x => notnull x = true) buf ->
  calc_mean 7 st = arithmetic_mean buf.
Proof.
  intros (Hall & _ & Hn & Hneg & Hsum & _ & _ & Hprev & Hnum & Hrun) Hlen Hvalid.
  assert (filter (fun x => notnull x = true) buf = buf) as Hf.
  { clear -Hvalid. induction Hvalid as [|x l Hx _ IH]; [done|].
    by rewrite filter_cons_True, IH. }
  assert (nobs st = 7) as Hn7.
  { rewrite Hn. unfold count_valid. rewrite Hf, Hlen. done. }
  pose proof (int_sum_bound buf Hall) as Hb. rewrite Hlen in Hb.
  pose proof count_bound_lt as Hbl.
  unfold calc_mean, arithmetic_mean. fold (int_sum buf).
  rewrite Hn7, Hlen, Hsum. change (Z.of_nat 7) with 7.
  change ((7 <=? 7) && (0 <? 7)) with true. cbv iota.
  destruct (Z.leb_spec 7 (num_consecutive_same_value st)) as [Hrun7|Hrun7].
  - assert (Forall (fun y => y = prev_value st) buf) as Hsame.
    { apply Forall_forall. intros x Hx.
      rewrite <- Hf in Hx. apply elem_of_reverse in Hx.
      apply list_elem_of_lookup in Hx as [j Hj].
      apply (Hrun j); [done|].
      apply lookup_lt_Some in Hj. rewrite length_reverse, Hf, Hlen in Hj. lia. }
    rewrite (int_sum_all_equal buf _ Hsame), Hlen. change (Z.of_nat 7) with 7.
    destruct buf as [|x buf]; [done|].
    apply Forall_cons in Hsame as [-> _]. apply Forall_cons in Hvalid as [Hv _].
    destruct (counted_cases _ Hprev) as [(_ & _ & Hnn)|(z & Hp & Hz & Hbz & _)];
      [congruence|].
    rewrite Hz, div_of_Z_exact by (unfold count_bound in *; lia). done.
  - destruct (div_of_Z_sign (int_sum buf) 7) as [Hpos Hnegv];
      [unfold count_bound in *; lia|done|].
    destruct (Z.eqb_spec (neg_ct st) 0) as [H0|H0].
    + rewrite andb_true_l, Hpos by (apply no_negative_sum; [done|lia]).
      rewrite H0. reflexivity.
    + rewrite andb_false_l.
      destruct (Z.eqb_spec (neg_ct st) 7) as [H7|H7]; [|reflexivity].
      rewrite andb_true_l, Hnegv; [done|].
      apply all_negative_sum; [done|]. rewrite <- Hneg, <- Hn. lia.
Qed.

Lemma exact_setup first : counted first -> exact_state (setup first) [].
Proof.
  intros H. unfold exact_state, setup. simpl.
  repeat split; try done; try lia.
Qed.

Lemma Forall_true_valid (s : Series) :
  Forall (fun x => valid x = true) s ->
  Forall (fun x => notnull x = true) (prep_values s) ∧ prep_values s = s.
Proof.
  induction 1 as [|x l Hx _ [IH1 IH2]]; [done|].
  unfold prep_values in *. rewrite fmap_cons, IH2. rewrite IH2 in IH1.
  unfold valid in Hx. apply andb_prop in Hx as [H1 H2].
  destruct (is_inf x); [done|]. split; [by constructor|done].
Qed.

(** From position 6 on, a window of integers has its arithmetic mean when
    every earlier observation was an integer too. *)
Lemma rolling_mean_exact s i :
  (i < length s)%nat -> (6 ≤ i)%nat ->
  Forall (fun x => is_count x = true) (take (S i) s) ->
  Forall (fun x => valid x = true) (window_at 7 i s) ->
  rolling_mean 7 s !! i = Some (arithmetic_mean (window_at 7 i s)).
Proof.
  intros Hi H6 Hcount Hvalid. unfold rolling_mean, roll_mean.
  destruct (prep_values s) as [|first rest] eqn:Hs.
  { apply (f_equal length) in Hs. unfold prep_values in Hs.
    rewrite length_fmap in Hs. simpl in Hs. lia. }
  rewrite <- Hs.
  assert (Forall counted (take (S i) (prep_values s))) as HQ.
  { unfold prep_values. rewrite <- fmap_take. apply Forall_fmap.
    eapply Forall_impl; [exact Hcount|]. intros x. apply counted_prep. }
  assert (counted first) as Hfirst.
  { rewrite Hs in HQ. rewrite firstn_cons in HQ. by apply Forall_cons in HQ as [? _]. }
  destruct (roll_from_inv 7 exact_state counted ltac:(lia) remove_exact add_exact
              (prep_values s) (setup first) [] i) as (st' & HP & ->);
    [simpl; lia|by apply exact_setup|done|unfold prep_values; by rewrite length_fmap|].
  f_equal. rewrite app_nil_l in HP. fold (window_at 7 i (prep_values s)) in HP.
  rewrite window_at_prep in HP.
  destruct (Forall_true_valid _ Hvalid) as [Hnn Hprep]. rewrite Hprep in HP.
  apply calc_mean_exact; [done| |by rewrite <- Hprep].
  unfold window_at. rewrite most_recent_length, length_take. lia.
Qed.

(** From position [window - 1] on, the window is the [window] trailing
    elements. *)
Lemma window_at_trailing w i (s : Series) :
  (w ≤ S i)%nat -> (i < length s)%nat ->
  window_at w i s = take w (drop (S i - w) s).
Proof.
  intros Hw Hi. unfold window_at, most_recent.
  rewrite length_take_le by lia. rewrite take_drop_commute.
  by replace (S i - w + w)%nat with (S i) by lia.
Qed.

Lemma window_at_length w i (s : Series) :
  (i < length s)%nat -> length (window_at w i s) = (w `min` S i)%nat.
Proof.
  intros Hi. unfold window_at. rewrite most_recent_length, length_take_le; lia.
Qed.

(** ** The smoothed columns, row by row *)

Lemma setitem_rolling_length c c' df :
  length (rows (setitem c' (rolling_mean 7 (cell c <$> rows df)) df))
  = length (rows df).
Proof.
  simpl. rewrite length_zip_with, length_rolling_mean, length_fmap. lia.
Qed.

(** Row [i] of the frame after [df[c'] = df[c].rolling(7).mean()]. *)
Lemma setitem_rolling_lookup c c' df i r' :
  rows (setitem c' (rolling_mean 7 (cell c <$> rows df)) df) !! i = Some r' ->
  exists r v, rows df !! i = Some r
    ∧ rolling_mean 7 (cell c <$> rows df) !! i = Some v
    ∧ r' = set_cell c' v r.
Proof.
  simpl. intros (v & r & -> & Hv & Hr)%lookup_zip_with_Some. by exists r, v.
Qed.

Lemma daily_new_cases_guard df country :
  negb (empty (loc_eq country df))
    && bool_decide ("new_cases" ∈ columns (loc_eq country df)) = true ->
  daily_new_cases df country
  = Ok (Some (setitem "new_cases_smoothed"
                (rolling_mean 7 (cell "new_cases" <$> rows (loc_eq country df)))
                (loc_eq country df))).
Proof.
  intros G. unfold daily_new_cases. rewrite G.
  apply andb_prop in G as [_ G]. apply bool_decide_eq_true_1 in G.
  by rewrite (getitem_elem "new_cases" (loc_eq country df) G).
Qed.

Lemma daily_new_cases_Some df country out :
  daily_new_cases df country = Ok (Some out) ->
  out = setitem "new_cases_smoothed"
          (rolling_mean 7 (cell "new_cases" <$> rows (loc_eq country df)))
          (loc_eq country df).
Proof.
  destruct (negb (empty (loc_eq country df))
            && bool_decide ("new_cases" ∈ columns (loc_eq country df))) eqn:G.
  - rewrite (daily_new_cases_guard _ _ G). congruence.
  - unfold daily_new_cases. rewrite G. discriminate.
Qed.

(** The waves cell computes the same [new_cases_smoothed] column. *)
Lemma waves_panel_Some df country out :
  waves_panel df country = Ok (Some out) ->
  exists out1, daily_new_cases df country = Ok (Some out1)
    ∧ length (rows out) = length (rows out1)
    ∧ forall i r', rows out !! i = Some r' ->
        exists r1, rows out1 !! i = Some r1
          ∧ location r' = location r1 ∧ date r' = date r1
          ∧ cell "new_cases_smoothed" r' = cell "new_cases_smoothed" r1.
Proof.
  destruct (negb (empty (loc_eq country df))
            && bool_decide ("new_cases" ∈ columns (loc_eq country df))) eqn:G;
    [|unfold waves_panel; rewrite G; discriminate].
  rewrite (daily_new_cases_guard _ _ G).
  unfold waves_panel. rewrite G.
  apply andb_prop in G as [_ G]. apply bool_decide_eq_true_1 in G.
  rewrite (getitem_elem "new_cases" (loc_eq country df) G).
  set (cd1 := setitem "new_cases_smoothed" _ (loc_eq country df)).
  change (Ok (cell "new_cases" <$> rows (loc_eq country df)) ≫= _)
    with (if decide ("new_deaths" ∈ columns cd1)
          then new_deaths ← getitem "new_deaths" cd1;
               Ok (Some (setitem "new_deaths_smoothed"
                           (rolling_mean 7 new_deaths) cd1))
          else Ok (Some cd1)).
  destruct (decide ("new_deaths" ∈ columns cd1)) as [Hnd|Hnd].
  - rewrite (getitem_elem "new_deaths" cd1 Hnd).
    intros [= <-]. exists cd1. split; [done|].
    split; [apply (setitem_rolling_length "new_deaths" "new_deaths_smoothed" cd1)|].
    intros i r' Hr'.
    apply (setitem_rolling_lookup "new_deaths" "new_deaths_smoothed" cd1)
      in Hr' as (r1 & v & Hr1 & _ & ->).
    exists r1. split; [done|]. split; [done|]. split; [done|].
    by rewrite cell_set_cell_ne.
  - intros [= <-]. exists cd1. split; [done|]. split; [done|]. eauto.
Qed.

(** The smoothed value of row [i] of one country, and where it comes
    from. *)
Lemma smoothed_cell df country out i r' :
  daily_new_cases df country = Ok (Some out) -> rows out !! i = Some r' ->
  exists r, rows (loc_eq country df) !! i = Some r
    ∧ location r' = country ∧ date r' = date r
    ∧ rolling_mean 7 (cell "new_cases" <$> rows (loc_eq country df)) !! i
      = Some (cell "new_cases_smoothed" r').
Proof.
  intros -> % daily_new_cases_Some (r & v & Hr & Hv & ->) % setitem_rolling_lookup.
  exists r. split; [done|]. split; [|split; [done|by rewrite cell_set_cell_eq]].
  simpl. apply list_elem_of_lookup_2 in Hr. simpl in Hr.
  by apply list_elem_of_filter in Hr as [? _].
Qed.

(** The trailing seven rows of a sequence give the trailing seven values. *)
Lemma window_at_rows c (seq : list Row) i :
  (6 ≤ i)%nat -> (i < length seq)%nat ->
  window_at 7 i (cell c <$> seq) = cell c <$> take 7 (drop (i - 6) seq).
Proof.
  intros H6 Hi. rewrite window_at_trailing by (rewrite ?length_fmap; lia).
  rewrite fmap_take, fmap_drop. by replace (S i - 7)%nat with (i - 6)%nat by lia.
Qed.

(** The three cases of the 7-row rolling average of a column over a
    sequence of rows. *)
Lemma rolling_cases c (seq : list Row) i v :
  rolling_mean 7 (cell c <$> seq) !! i = Some v ->
  let window := take 7 (drop (i - 6) seq) in
  ((i < 6)%nat -> v = nan)
  ∧ ((6 ≤ i)%nat -> Exists (fun r => valid (cell c r) = false) window -> v = nan)
  ∧ ((6 ≤ i)%nat ->
     Forall (fun r => is_count (cell c r) = true) (take (S i) seq) ->
     Forall (fun r => valid (cell c r) = true) window ->
     v = arithmetic_mean (cell c <$> window)).
Proof.
  intros Hv window.
  assert (i < length (cell c <$> seq))%nat as Hi.
  { apply lookup_lt_Some in Hv. by rewrite length_rolling_mean in Hv. }
  pose proof Hi as Hi'. rewrite length_fmap in Hi'.
  split; [|split].
  - intros H6.
    rewrite (rolling_mean_few 7 (cell c <$> seq) i) in Hv; [congruence|lia|done|].
    pose proof (length_filter (fun x => valid x = true) (window_at 7 i (cell c <$> seq))).
    rewrite window_at_length in * by done. lia.
  - intros H6 (r & Hr & Hinv)%Exists_exists.
    rewrite (rolling_mean_few 7 (cell c <$> seq) i) in Hv; [congruence|lia|done|].
    rewrite window_at_rows by done. fold window.
    assert (length (cell c <$> window) ≤ 7)%nat
      by (rewrite length_fmap; subst window; rewrite length_take; lia).
    assert (length (filter (fun x => valid x = true) (cell c <$> window))
            < length (cell c <$> window))%nat; [|lia].
    apply (length_filter_lt _ _ (cell c r)); [by apply list_elem_of_fmap_2|].
    by rewrite Hinv.
  - intros H6 Hcount Hvalid.
    rewrite (rolling_mean_exact (cell c <$> seq) i) in Hv.
    + rewrite window_at_rows in Hv by done. subst window. congruence.
    + done.
    + done.
    + rewrite <- fmap_take. by apply Forall_fmap.
    + rewrite window_at_rows by done. by apply Forall_fmap.
Qed.

(** ** The 7-day average of one country (C2, C10) *)

(** The cases of a smoothed value, for either cell that computes the
    column. *)
Lemma smoothed_cases df country out i r' :
  daily_new_cases df country = Ok (Some out)
  ∨ waves_panel df country = Ok (Some out) ->
  rows out !! i = Some r' ->
  let seq := filter (fun r => location r = country) (rows df) in
  let window := take 7 (drop (i - 6) seq) in
  length (rows out) = length seq
  ∧ location r' = country
  ∧ date <$> seq !! i = Some (date r')
  ∧ ((i < 6)%nat -> cell "new_cases_smoothed" r' = nan)
  ∧ ((6 ≤ i)%nat -> Exists (fun r => valid (cell "new_cases" r) = false) window ->
     cell "new_cases_smoothed" r' = nan)
  ∧ ((6 ≤ i)%nat ->
     Forall (fun r => is_count (cell "new_cases" r) = true) (take (S i) seq) ->
     Forall (fun r => valid (cell "new_cases" r) = true) window ->
     cell "new_cases_smoothed" r' = arithmetic_mean (cell "new_cases" <$> window)).
Proof.
  intros Hout Hr' seq window.
  assert (exists out1 r1, daily_new_cases df country = Ok (Some out1)
            ∧ length (rows out) = length (rows out1)
            ∧ rows out1 !! i = Some r1 ∧ location r' = location r1
            ∧ date r' = date r1
            ∧ cell "new_cases_smoothed" r' = cell "new_cases_smoothed" r1)
    as (out1 & r1 & Hout1 & Hlen & Hr1 & -> & -> & ->).
  { destruct Hout as [Hout|Hout]; [by exists out, r'|].
    apply waves_panel_Some in Hout as (out1 & Hout1 & Hlen & Hrows).
    destruct (Hrows i r' Hr') as (r1 & ? & ? & ? & ?). by exists out1, r1. }
  destruct (smoothed_cell df country out1 i r1 Hout1 Hr1)
    as (r & Hr & Hloc & -> & Hv).
  rewrite Hlen. apply daily_new_cases_Some in Hout1. subst out1.
  rewrite setitem_rolling_length. change (rows (loc_eq country df)) with seq in *.
  split; [done|]. split; [done|]. split; [by rewrite Hr|].
  exact (rolling_cases "new_cases" seq i _ Hv).
Qed.

(** A window never leaves the rows of its country. *)
Lemma window_of_one_country df country i :
  Forall (fun r => r ∈ rows df ∧ location r = country)
    (take 7 (drop (i - 6) (filter (fun r => location r = country) (rows df)))).
Proof.
  apply Forall_take, Forall_drop, Forall_forall.
  intros r Hr. apply list_elem_of_filter in Hr. tauto.
Qed.

Lemma isnull_not_valid x : isnull x = true -> valid x = false.
Proof. unfold valid, notnull. by intros ->. Qed.

(** C2, as the code has it. For a country that the smoothing loop handles
    (either cell), the output has one row per row of that country, row [i]
    of the output being row [i] of the country's sequence with the smoothed
    value written, and every window consists of rows of that one country.
    [new_cases_smoothed] is not-a-number at the first 6 positions, and at
    every later position whose trailing 7 [new_cases] values include a null
    or an infinite value. At a later position whose trailing 7 values are all
    finite it is the arithmetic mean of these 7 values (their exact sum
    divided by 7, rounded once) when the [new_cases] values of the country up
    to that position are counts: null, infinite, or integers of magnitude at
    most [2^50]. For other histories the value is what the library's running
    compensated sum gives. *)
Theorem new_cases_smoothed_windows df country out i r' :
  daily_new_cases df country = Ok (Some out)
  ∨ waves_panel df country = Ok (Some out) ->
  rows out !! i = Some r' ->
  let seq := filter (fun r => location r = country) (rows df) in
  let window := take 7 (drop (i - 6) seq) in
  length (rows out) = length seq
  ∧ location r' = country
  ∧ date <$> seq !! i = Some (date r')
  ∧ Forall (fun r => r ∈ rows df ∧ location r = country) window
  ∧ ((i < 6)%nat -> cell "new_cases_smoothed" r' = nan)
  ∧ ((6 ≤ i)%nat -> Exists (fun r => valid (cell "new_cases" r) = false) window ->
     cell "new_cases_smoothed" r' = nan)
  ∧ ((6 ≤ i)%nat ->
     Forall (fun r => is_count (cell "new_cases" r) = true) (take (S i) seq) ->
     Forall (fun r => valid (cell "new_cases" r) = true) window ->
     cell "new_cases_smoothed" r' = arithmetic_mean (cell "new_cases" <$> window)).
Proof.
  intros Hout Hr' seq window.
  destruct (smoothed_cases df country out i r' Hout Hr')
    as (H1 & H2 & H3 & H4 & H5 & H6).
  repeat split; try assumption. apply window_of_one_country.
Qed.

Lemma new_cases_smoothed_windows_witness :
  let out := setitem "new_cases_smoothed"
               (rolling_mean 7 (cell "new_cases" <$> rows gap_frame))
               gap_frame in
  let r' := set_cell "new_cases_smoothed" (of_Z 7)
              (row "Kenya" 10 [("total_cases", of_Z 10); ("total_deaths", of_Z 1);
                               ("new_cases", of_Z 10)]) in
  (daily_new_cases gap_frame "Kenya" = Ok (Some out)
   ∨ waves_panel gap_frame "Kenya" = Ok (Some out))
  ∧ rows out !! 9%nat = Some r'
  ∧ cell "new_cases_smoothed" r'
    = arithmetic_mean [of_Z 4; of_Z 5; of_Z 6; of_Z 7; of_Z 8; of_Z 9; of_Z 10]
  ∧ arithmetic_mean [of_Z 4; of_Z 5; of_Z 6; of_Z 7; of_Z 8; of_Z 9; of_Z 10]
    = of_Z 7.
Proof.
  intros out r'.
  assert (daily_new_cases gap_frame "Kenya" = Ok (Some out)
          ∨ waves_panel gap_frame "Kenya" = Ok (Some out)) as H1
    by (left; vm_compute; reflexivity).
  assert (rows out !! 9%nat = Some r') as H2 by (vm_compute; reflexivity).
  split; [exact H1|]. split; [exact H2|]. split; [|vm_compute; reflexivity].
  destruct (new_cases_smoothed_windows gap_frame "Kenya" out 9%nat r' H1 H2)
    as (_ & _ & _ & _ & _ & _ & Hmean).
  rewrite Hmean; [reflexivity|lia| |];
    match goal with |- ?G => apply (bool_decide_unpack G) end; vm_compute; exact I.
Defined.

(** C2, as stated, fails: with a null [new_cases] on the third of ten days
    (a row the completeness filter keeps), the smoothed column starts with
    nine not-a-number entries, not six. *)
Lemma nine_leading_nans :
  complete_cases gap_frame = Ok gap_frame
  ∧ (fmap (M:=option) smoothed_by_date <$> daily_new_cases gap_frame "Kenya")
    = Ok (Some [(Some 1, nan); (Some 2, nan); (Some 3, nan); (Some 4, nan);
                (Some 5, nan); (Some 6, nan); (Some 7, nan); (Some 8, nan);
                (Some 9, nan); (Some 10, of_Z 7)]).
Proof. split; vm_compute; reflexivity. Qed.

(** An infinite [new_cases] blanks its windows like a null one. *)
Example infinite_new_cases :
  (fmap (M:=option) (fun out => cell "new_cases_smoothed" <$> rows out)
     <$> daily_new_cases inf_frame "Kenya")
  = Ok (Some [nan; nan; nan; nan; nan; nan; nan; nan; nan; nan; of_Z 8; of_Z 9]).
Proof. vm_compute; reflexivity. Qed.

(** A country with no row, or a table with no [new_cases] column, is
    skipped. *)
Lemma daily_new_cases_skipped df country :
  filter (fun r => location r = country) (rows df) = [] ∨ "new_cases" ∉ columns df ->
  daily_new_cases df country = Ok None.
Proof.
  intros H. unfold daily_new_cases, empty. simpl.
  destruct H as [->|H]; [done|].
  by rewrite (bool_decide_eq_false_2 _ H), andb_false_r.
Qed.

(** The completeness filter looks at the two total counts only. *)
Lemma complete_cases_keeps df out r :
  complete_cases df = Ok out -> r ∈ rows df ->
  isnull (cell "total_cases" r) = false -> isnull (cell "total_deaths" r) = false ->
  r ∈ rows out.
Proof.
  unfold complete_cases, dropna. intros Hout Hr Hc Hd.
  destruct (filter _ _); [|discriminate]. injection Hout as <-. simpl.
  apply list_elem_of_filter. split; [|done].
  unfold complete, notnull. repeat constructor; by rewrite ?Hc, ?Hd.
Qed.

(** C10. The case/death completeness filter keeps every row whose two total
    counts are non-null, whatever its [new_cases]; and from position 6 on,
    [new_cases_smoothed] is not-a-number wherever the trailing 7 rows include
    a null [new_cases]. On the ten-day sample, whose third day has no
    [new_cases], the filter keeps all rows and positions 6, 7 and 8 of the
    smoothed column are not-a-number. *)
Theorem null_new_cases_spreads :
  (forall df out r, complete_cases df = Ok out -> r ∈ rows df ->
     isnull (cell "total_cases" r) = false -> isnull (cell "total_deaths" r) = false ->
     r ∈ rows out)
  ∧ (forall df country out i r',
       daily_new_cases df country = Ok (Some out)
       ∨ waves_panel df country = Ok (Some out) ->
       rows out !! i = Some r' -> (6 ≤ i)%nat ->
       Exists (fun r => isnull (cell "new_cases" r) = true)
         (take 7 (drop (i - 6) (filter (fun r => location r = country) (rows df)))) ->
       cell "new_cases_smoothed" r' = nan)
  ∧ complete_cases gap_frame = Ok gap_frame
  ∧ getitem "new_cases" gap_frame
    = Ok [of_Z 1; of_Z 2; nan; of_Z 4; of_Z 5; of_Z 6; of_Z 7; of_Z 8; of_Z 9; of_Z 10]
  ∧ (fmap (M:=option) (fun out => cell "new_cases_smoothed" <$> rows out)
       <$> daily_new_cases gap_frame "Kenya")
    = Ok (Some [nan; nan; nan; nan; nan; nan; nan; nan; nan; of_Z 7]).
Proof.
  split; [exact complete_cases_keeps|]. split.
  - intros df country out i r' Hout Hr' H6 Hex.
    apply (smoothed_cases df country out i r' Hout Hr'); [done|].
    eapply Exists_impl; [exact Hex|]. intros r. apply isnull_not_valid.
  - repeat split; vm_compute; reflexivity.
Qed.

Lemma null_new_cases_spreads_witness :
  let out := setitem "new_cases_smoothed"
               (rolling_mean 7 (cell "new_cases" <$> rows gap_frame))
               gap_frame in
  let r' := set_cell "new_cases_smoothed" nan
              (row "Kenya" 9 [("total_cases", of_Z 10); ("total_deaths", of_Z 1);
                              ("new_cases", of_Z 9)]) in
  (daily_new_cases gap_frame "Kenya" = Ok (Some out)
   ∨ waves_panel gap_frame "Kenya" = Ok (Some out))
  ∧ rows out !! 8%nat = Some r'
  ∧ Exists (fun r => isnull (cell "new_cases" r) = true)
      (take 7 (drop (8 - 6) (filter (fun r => location r = "Kenya") (rows gap_frame))))
  ∧ cell "new_cases_smoothed" r' = nan.
Proof.
  intros out r'.
  assert (daily_new_cases gap_frame "Kenya" = Ok (Some out)
          ∨ waves_panel gap_frame "Kenya" = Ok (Some out)) as H1
    by (left; vm_compute; reflexivity).
  assert (rows out !! 8%nat = Some r') as H2 by (vm_compute; reflexivity).
  assert (Exists (fun r => isnull (cell "new_cases" r) = true)
            (take 7 (drop (8 - 6)
               (filter (fun r => location r = "Kenya") (rows gap_frame))))) as H3
    by (vm_compute; left; reflexivity).
  split; [exact H1|]. split; [exact H2|]. split; [exact H3|].
  exact (proj1 (proj2 null_new_cases_spreads) gap_frame "Kenya" out 8%nat r'
           H1 H2 ltac:(lia) H3).
Defined.

(** ** Row order before the windows (C3) *)

Lemma date_zip_set_cell c (s : Series) (l : list Row) :
  (length l ≤ length s)%nat -> date <$> zip_with (set_cell c) s l = date <$> l.
Proof.
  revert s. induction l as [|r l IH]; intros [|v s] Hlen; simpl in *;
    try done; try lia.
  f_equal. apply IH. lia.
Qed.

(** The smoothing cell keeps the rows of a country in table order; it never
    sorts them. *)
Lemma daily_new_cases_table_order df country out :
  daily_new_cases df country = Ok (Some out) ->
  date <$> rows out = date <$> filter (fun r => location r = country) (rows df).
Proof.
  intros -> % daily_new_cases_Some. simpl.
  apply date_zip_set_cell. by rewrite length_rolling_mean, length_fmap.
Qed.

(** C3 on a table stored latest first. The rolling window runs over the rows
    as stored: the row dated 2 gets the mean of the days 8 down to 2, and the
    rows dated 7 and 8 get no value. On the same days stored in date order
    the rows dated 7 and 8 get the 7-day means and the row dated 2 gets none.
    [latest_data] on the table stored latest first does sort: it returns the
    row dated 8. *)
Theorem rolling_runs_in_table_order :
  complete_cases latest_first_frame = Ok latest_first_frame
  ∧ (fmap (M:=option) smoothed_by_date
       <$> daily_new_cases latest_first_frame "Kenya")
    = Ok (Some [(Some 8, nan); (Some 7, nan); (Some 6, nan); (Some 5, nan);
                (Some 4, nan); (Some 3, nan); (Some 2, of_Z 5); (Some 1, of_Z 4)])
  ∧ (fmap (M:=option) smoothed_by_date
       <$> daily_new_cases earliest_first_frame "Kenya")
    = Ok (Some [(Some 1, nan); (Some 2, nan); (Some 3, nan); (Some 4, nan);
                (Some 5, nan); (Some 6, nan); (Some 7, of_Z 4); (Some 8, of_Z 5)])
  ∧ date <$> rows (latest_data (merge_sort by_date) latest_first_frame) = [Some 8].
Proof. repeat split; vm_compute; reflexivity. Qed.

(** ** The order of dates *)

#[export] Instance date_le_transitive : Transitive date_le.
Proof. intros [x|] [y|] [z|]; simpl; try tauto; lia. Qed.

#[export] Instance date_le_total : Total date_le.
Proof. intros [x|] [y|]; simpl; try tauto; lia. Qed.

#[export] Instance by_date_transitive : Transitive by_date.
Proof. intros x y z. unfold by_date. apply date_le_transitive. Qed.

#[export] Instance by_date_total : Total by_date.
Proof. intros x y. unfold by_date. apply date_le_total. Qed.

Lemma StronglySorted_filter {A} (R : relation A) (P : A -> Prop)
    `{forall x, Decision (P x)} (l : list A) :
  StronglySorted R l -> StronglySorted R (filter P l).
Proof.
  induction 1 as [|x l _ IH Hx]; [constructor|].
  rewrite filter_cons. destruct (decide (P x)); [|done].
  constructor; [done|]. apply Forall_forall. intros y Hy.
  apply list_elem_of_filter in Hy as [_ Hy].
  by apply (proj1 (Forall_forall _ _) Hx).
Qed.

(** ** [GroupBy.last] on one group *)

(** The last non-null date of a date-sorted group is its greatest date. *)
Lemma last_date_greatest group r d :
  StronglySorted by_date group -> r ∈ group -> date r = Some d ->
  exists dmax, last_date group = Some dmax ∧ d <= dmax.
Proof.
  intros Hsorted Hr Hd. unfold last_date.
  assert (Some d ∈ filter is_Some (date <$> group)) as Hin.
  { apply list_elem_of_filter. split; [by eexists|].
    rewrite <- Hd. by apply list_elem_of_fmap_2. }
  destruct (last (filter is_Some (date <$> group))) as [x|] eqn:E.
  - pose proof (last_Some_elem_of _ _ E) as Hx.
    apply list_elem_of_filter in Hx as [[dmax ->] _].
    exists dmax. split; [done|].
    apply last_filter_Some in E as (l1 & l2 & Hsplit & Hl2).
    assert (StronglySorted date_le (date <$> group)) as Hdates
      by (by apply (StronglySorted_fmap date by_date date_le)).
    assert (Some d ∈ date <$> group) as Hd'
      by (rewrite <- Hd; by apply list_elem_of_fmap_2).
    rewrite Hsplit in Hdates, Hd'.
    apply elem_of_app in Hd' as [Hd'|Hd'].
    + apply (StronglySorted_app_1_elem_of date_le l1 (Some dmax :: l2)
               (Some d) (Some dmax) Hdates Hd'). left.
    + apply elem_of_cons in Hd' as [[= ->]|Hd']; [lia|].
      destruct (proj1 (Forall_forall _ _) Hl2 _ Hd'). by eexists.
  - apply last_None in E. rewrite E in Hin. by apply elem_of_nil in Hin.
Qed.

Lemma last_date_attained group dmax :
  last_date group = Some dmax -> exists r, r ∈ group ∧ date r = Some dmax.
Proof.
  unfold last_date. intros H.
  destruct (last (filter is_Some (date <$> group))) as [x|] eqn:E; [|done].
  simpl in H. subst x. apply last_Some_elem_of in E.
  apply list_elem_of_filter in E as [_ E].
  apply list_elem_of_fmap in E as (r & ? & ?). eauto.
Qed.

(** A value in the last row of the group is the one returned. *)
Lemma last_valid_of_last c group rl :
  last group = Some rl -> isnull (cell c rl) = false ->
  last_valid c group = cell c rl.
Proof.
  intros [g ->]%last_Some Hnn. unfold last_valid.
  rewrite fmap_app, filter_app. simpl.
  rewrite filter_cons_True by (unfold notnull; by rewrite Hnn).
  by rewrite filter_nil, last_snoc.
Qed.

Lemma last_date_of_last group rl :
  last group = Some rl -> is_Some (date rl) -> last_date group = date rl.
Proof.
  intros [g ->]%last_Some Hnn. unfold last_date.
  rewrite fmap_app, filter_app. simpl.
  rewrite filter_cons_True by done. by rewrite filter_nil, last_snoc.
Qed.

(** Past the last non-null value of a column the group has only nulls. *)
Lemma last_valid_split c group :
  (exists g1 r g2, group = g1 ++ r :: g2
     ∧ isnull (cell c r) = false ∧ last_valid c group = cell c r
     ∧ Forall (fun r => isnull (cell c r) = true) g2)
  ∨ (last_valid c group = nan ∧ Forall (fun r => isnull (cell c r) = true) group).
Proof.
  unfold last_valid.
  induction group as [|r g IH] using rev_ind; [right; by split|].
  rewrite fmap_app, filter_app. simpl. rewrite filter_cons, filter_nil.
  destruct (isnull (cell c r)) eqn:E; unfold notnull; rewrite E; simpl.
  - rewrite app_nil_r.
    destruct IH as [(g1 & r0 & g2 & -> & Hnn & Hv & Hg2)|[Hv Hall]].
    + left. exists g1, r0, (g2 ++ [r]). rewrite <- app_assoc. simpl.
      split; [done|]. split; [done|]. split; [done|].
      apply Forall_app. split; [done|]. by constructor.
    + right. split; [done|]. apply Forall_app. split; [done|]. by constructor.
  - left. exists g, r, []. rewrite last_snoc. simpl. by repeat split.
Qed.

Lemma agg_last_cell cols key group c :
  c ∈ cols -> cell c (agg_last cols key group) = last_valid c group.
Proof.
  intros Hc. unfold cell, agg_last; simpl.
  induction cols as [|c' cols IH]; [by apply elem_of_nil in Hc|].
  simpl. destruct (decide (c' = c)) as [->|Hne].
  - by rewrite lookup_insert_eq.
  - rewrite lookup_insert_ne by done. apply IH.
    by apply elem_of_cons in Hc as [->|].
Qed.

(** ** The latest row per country (C5) *)

Lemma group_keys_elem (l : list Row) k :
  k ∈ group_keys l <-> exists r, r ∈ l ∧ location r = k.
Proof.
  unfold group_keys. rewrite merge_sort_Permutation, elem_of_remove_dups.
  rewrite list_elem_of_fmap. split; intros (r & H1 & H2); eauto.
Qed.

Lemma group_keys_NoDup (l : list Row) : NoDup (group_keys l).
Proof.
  unfold group_keys. rewrite merge_sort_Permutation. apply NoDup_remove_dups.
Qed.

Section LatestFacts.

Variable sort_values : list Row -> list Row.

(** What [sort_values('date')] guarantees: the same rows, in ascending
    date order. Which of two rows of one date comes first is the sorting
    algorithm's choice. *)
Hypothesis sort_values_perm : forall l, sort_values l ≡ₚ l.
Hypothesis sort_values_sorted : forall l, Sorted by_date (sort_values l).

Lemma date_ordered_elem country df r :
  r ∈ date_ordered sort_values country df <-> r ∈ rows df ∧ location r = country.
Proof.
  unfold date_ordered. rewrite list_elem_of_filter, sort_values_perm. tauto.
Qed.

Lemma date_ordered_sorted country df :
  StronglySorted by_date (date_ordered sort_values country df).
Proof.
  apply StronglySorted_filter, Sorted_StronglySorted; [apply _|done].
Qed.

Lemma latest_data_keys df :
  location <$> rows (latest_data sort_values df)
  = group_keys (sort_values (rows df)).
Proof.
  unfold latest_data; simpl.
  induction (group_keys (sort_values (rows df))) as [|k ks IH]; [done|].
  simpl. f_equal. exact IH.
Qed.

Lemma latest_data_one_row_per_country df :
  NoDup (location <$> rows (latest_data sort_values df)).
Proof. rewrite latest_data_keys. apply group_keys_NoDup. Qed.

(** C5, as the code has it. For every country with a row in the table,
    the result has exactly one row of that country. Its date is the
    greatest date of the country's rows. Each column holds the last
    non-null value of that column in the country's date-ordered sequence
    (null if the column is null throughout), which need not come from the
    row of the greatest date; where the last row of the sequence has a
    value, that value is the one returned. *)
Theorem latest_data_per_entity df e r0 :
  r0 ∈ rows df -> location r0 = e ->
  NoDup (location <$> rows (latest_data sort_values df))
  ∧ exists r', r' ∈ rows (latest_data sort_values df) ∧ location r' = e
    ∧ (forall r'', r'' ∈ rows (latest_data sort_values df) ->
         location r'' = e -> r'' = r')
    ∧ (forall r d, r ∈ rows df -> location r = e -> date r = Some d ->
         exists dmax, date r' = Some dmax ∧ d <= dmax)
    ∧ (forall dmax, date r' = Some dmax ->
         exists r, r ∈ rows df ∧ location r = e ∧ date r = Some dmax)
    ∧ (forall c, c ∈ columns df ->
         (exists g1 r g2, date_ordered sort_values e df = g1 ++ r :: g2
            ∧ isnull (cell c r) = false ∧ cell c r' = cell c r
            ∧ Forall (fun r => isnull (cell c r) = true) g2)
         ∨ (cell c r' = nan
            ∧ Forall (fun r => isnull (cell c r) = true)
                (date_ordered sort_values e df)))
    ∧ (forall rl, last (date_ordered sort_values e df) = Some rl ->
         (is_Some (date rl) -> date r' = date rl)
         ∧ forall c, c ∈ columns df -> isnull (cell c rl) = false ->
             cell c r' = cell c rl).
Proof.
  intros Hr0 Hloc. split; [apply latest_data_one_row_per_country|].
  set (seq := date_ordered sort_values e df).
  exists (agg_last (columns df) e seq).
  assert (e ∈ group_keys (sort_values (rows df))) as Hkey.
  { apply group_keys_elem. exists r0. by rewrite sort_values_perm. }
  split; [|split; [done|]].
  { unfold latest_data; simpl. apply list_elem_of_fmap. by exists e. }
  split; [|split; [|split; [|split]]].
  - intros r'' Hr'' Hl. unfold latest_data in Hr''; simpl in Hr''.
    apply list_elem_of_fmap in Hr'' as (k & -> & _). simpl in Hl. by subst k.
  - intros r d Hr Hl Hd. simpl.
    apply (last_date_greatest seq r d); [apply date_ordered_sorted| |done].
    by apply date_ordered_elem.
  - simpl. intros dmax (r & Hr & Hd)%last_date_attained.
    apply date_ordered_elem in Hr as [Hr Hl]. eauto.
  - intros c Hc. rewrite agg_last_cell by done. apply last_valid_split.
  - intros rl Hlast. split.
    + intros Hd. simpl. by apply last_date_of_last.
    + intros c Hc Hnn. rewrite agg_last_cell by done.
      by apply last_valid_of_last.
Qed.

End LatestFacts.

Lemma latest_data_per_entity_witness :
  (forall l, merge_sort by_date l ≡ₚ l)
  ∧ (forall l, Sorted by_date (merge_sort by_date l))
  ∧ row "Kenya" 2 [("total_cases", of_Z 10); ("total_deaths", of_Z 1); ("new_cases", nan)]
      ∈ rows late_gap_frame
  ∧ exists r', r' ∈ rows (latest_data (merge_sort by_date) late_gap_frame)
      ∧ location r' = "Kenya"
      ∧ exists d, date r' = Some d ∧ 2 <= d.
Proof.
  assert (forall l, merge_sort by_date l ≡ₚ l) as H1
    by exact (merge_sort_Permutation by_date).
  assert (forall l, Sorted by_date (merge_sort by_date l)) as H2
    by exact (Sorted_merge_sort by_date).
  assert (row "Kenya" 2
            [("total_cases", of_Z 10); ("total_deaths", of_Z 1); ("new_cases", nan)]
          ∈ rows late_gap_frame) as H3 by (simpl; right; left).
  split; [exact H1|]. split; [exact H2|]. split; [exact H3|].
  destruct (latest_data_per_entity (merge_sort by_date) H1 H2 late_gap_frame "Kenya"
              _ H3 eq_refl) as (_ & r' & Hr' & Hloc & _ & Hmax & _).
  exists r'. split; [exact Hr'|]. split; [exact Hloc|].
  exact (Hmax _ 2 H3 eq_refl eq_refl).
Defined.

(** C5, as stated, fails: of two days the later has no [new_cases]; the
    returned row carries the later date with the earlier day's [new_cases],
    so it is not the row of the greatest date (nor any row of the table). *)
Lemma latest_data_mixes_rows :
  complete_cases late_gap_frame = Ok late_gap_frame
  ∧ (fun r => (date r, cell "new_cases" r)) <$> rows late_gap_frame
    = [(Some 1, of_Z 3); (Some 2, nan)]
  ∧ (fun r => (location r, date r, cell "new_cases" r))
      <$> rows (latest_data (merge_sort by_date) late_gap_frame)
    = [("Kenya", Some 2, of_Z 3)].
Proof. repeat split; vm_compute; reflexivity. Qed.

(** * Further properties of the notebook *)

(** ** How the derivation fails, and what it leaves alone *)

(** The derivation raises only for a missing total: [KeyError] on
    [total_deaths] when that column is missing, else on [total_cases]; a
    missing [population] never raises. *)
Theorem derive_metrics_outcome df :
  match derive_metrics df with
  | Ok out => "total_deaths" ∈ columns df ∧ "total_cases" ∈ columns df
  | Raise e =>
      (("total_deaths" ∉ columns df) ∧ e = KeyError ["total_deaths"])
      ∨ ("total_deaths" ∈ columns df ∧ ("total_cases" ∉ columns df)
         ∧ e = KeyError ["total_cases"])
  end.
Proof.
  destruct (decide ("total_deaths" ∈ columns df)) as [Hd|Hd].
  - destruct (decide ("total_cases" ∈ columns df)) as [Hc|Hc].
    + by rewrite derive_metrics_rows.
    + unfold derive_metrics, getitem.
      rewrite (decide_True _ _ Hd), (decide_False _ _ Hc). simpl. auto.
  - unfold derive_metrics, getitem. rewrite (decide_False _ _ Hd). simpl. auto.
Qed.

Lemma add_label_prefix c cols : cols `prefix_of` add_label c cols.
Proof. unfold add_label. case_decide; [done|]. by apply prefix_app_r. Qed.

Lemma derive_columns_prefix b cols : cols `prefix_of` derive_columns b cols.
Proof.
  unfold derive_columns. destruct b; [|apply add_label_prefix].
  etrans; [apply add_label_prefix|]. etrans; apply add_label_prefix.
Qed.

Lemma derive_row_frame b r :
  location (derive_row b r) = location r ∧ date (derive_row b r) = date r
  ∧ forall c, c ≠ "death_rate" -> c ≠ "cases_per_million" ->
      c ≠ "deaths_per_million" -> cells (derive_row b r) !! c = cells r !! c.
Proof.
  unfold derive_row, with_deaths_per_million, with_cases_per_million,
    with_death_rate.
  destruct b; repeat split; intros; by rewrite ?lookup_set_cell_ne.
Qed.

(** The derivation never touches what was there: the labels of the input
    stay first and in order, and row by row the location, the date and every
    cell but the three derived ones are those of the input. *)
Theorem derive_metrics_preserves df out :
  derive_metrics df = Ok out ->
  columns df `prefix_of` columns out
  ∧ Forall2 (fun r r' =>
       location r' = location r ∧ date r' = date r
       ∧ forall c, c ≠ "death_rate" -> c ≠ "cases_per_million" ->
           c ≠ "deaths_per_million" -> cells r' !! c = cells r !! c)
      (rows df) (rows out).
Proof.
  intros -> % derive_metrics_Ok. simpl. split; [apply derive_columns_prefix|].
  apply Forall2_fmap_r, Forall_Forall2_diag, Forall_forall.
  intros r _. apply derive_row_frame.
Qed.

Lemma derive_metrics_preserves_witness :
  let out := {| columns := derive_columns true (columns population_frame);
                rows := derive_row true <$> rows population_frame |} in
  derive_metrics population_frame = Ok out
  ∧ columns population_frame `prefix_of` columns out.
Proof.
  intros out.
  assert (derive_metrics population_frame = Ok out) as H by (vm_compute; reflexivity).
  split; [exact H|].
  exact (proj1 (derive_metrics_preserves population_frame out H)).
Defined.

(** ** How [dropna] ends *)

Lemma dropna_outcome subset df :
  match dropna subset df with
  | Ok out =>
      Forall (fun c => c ∈ columns df) subset
      ∧ out = {| columns := columns df; rows := filter (complete subset) (rows df) |}
  | Raise e =>
      e = KeyError (filter (fun c => c ∉ columns df) subset)
      ∧ filter (fun c => c ∉ columns df) subset ≠ []
  end.
Proof.
  unfold dropna.
  destruct (filter (fun c => c ∉ columns df) subset) as [|k ks] eqn:E; [|done].
  split; [|done]. apply Forall_forall. intros c Hc.
  destruct (decide (c ∈ columns df)) as [|Hn]; [done|].
  assert (c ∈ filter (fun c => c ∉ columns df) subset) as Hin
    by (by apply list_elem_of_filter).
  rewrite E in Hin. by apply elem_of_nil in Hin.
Qed.

(** ** [dropna] with the other operations *)

(** Scoping and completeness filtering commute, the [KeyError] included. *)
Theorem dropna_scope_commute subset entity_names df :
  dropna subset (scope_to_entities entity_names df)
  = scope_to_entities entity_names <$> dropna subset df.
Proof.
  unfold dropna; simpl.
  destruct (filter (fun c => c ∉ columns df) subset); [|done]. simpl.
  unfold scope_to_entities; simpl. do 2 f_equal.
  rewrite !list_filter_filter. apply list_filter_iff. tauto.
Qed.

(** Filtering a filtered table again changes nothing. *)
Theorem dropna_idempotent subset df out :
  dropna subset df = Ok out -> dropna subset out = Ok out.
Proof.
  intros H. pose proof (dropna_outcome subset df) as Ho. rewrite H in Ho.
  destruct Ho as [Hcols ->].
  rewrite dropna_columns_present by done. simpl. do 2 f_equal.
  by apply list_filter_filter_l.
Qed.

Lemma dropna_idempotent_witness :
  let out := {| columns := ["total_cases"; "total_deaths"];
                rows := [row "Kenya" 2 [("total_cases", of_Z 5); ("total_deaths", of_Z 1)]] |} in
  dropna ["total_cases"; "total_deaths"] two_row_frame = Ok out
  ∧ dropna ["total_cases"; "total_deaths"] out = Ok out.
Proof.
  intros out.
  assert (dropna ["total_cases"; "total_deaths"] two_row_frame = Ok out) as H
    by (vm_compute; reflexivity).
  split; [exact H|]. exact (dropna_idempotent _ two_row_frame out H).
Defined.

Lemma length_filter_split {A} (P Q : A -> Prop) `{forall x, Decision (P x)}
    `{forall x, Decision (Q x)} (l : list A) :
  (forall x, P x <-> ¬ Q x) ->
  (length (filter P l) + length (filter Q l) = length l)%nat.
Proof.
  intros HPQ. induction l as [|x l IH]; [done|].
  rewrite !filter_cons. destruct (decide (P x)) as [HP|HP], (decide (Q x)) as [HQ|HQ];
    simpl; try lia.
  - by apply HPQ in HP.
  - destruct HP. by apply HPQ.
Qed.

Lemma filter_all {A} (P : A -> Prop) `{forall x, Decision (P x)} (l : list A) :
  Forall P l -> filter P l = l.
Proof.
  induction 1 as [|x l Hx _ IH]; [done|]. by rewrite filter_cons_True, IH.
Qed.

Lemma notnull_not_null x : notnull x <-> ¬ (isnull x = true).
Proof. unfold notnull. destruct (isnull x); simpl; split; try done; tauto. Qed.

Lemma complete_cons c subset r :
  complete (c :: subset) r <-> notnull (cell c r) ∧ complete subset r.
Proof. unfold complete. by rewrite Forall_cons. Qed.

(** The rows a filter removes are counted by [isnull().sum()]: for one
    required column exactly, for several at most the sum of their null
    counts. *)
Theorem dropna_row_count subset df out :
  dropna subset df = Ok out ->
  (length (rows out) ≤ length (rows df)
   ∧ length (rows df) ≤ length (rows out) + sum_list ((fun c => null_count c df) <$> subset)
   ∧ forall c, subset = [c] -> length (rows out) + null_count c df = length (rows df))%nat.
Proof.
  intros H. pose proof (dropna_outcome subset df) as Ho. rewrite H in Ho.
  destruct Ho as [_ ->]. simpl. clear H.
  assert (forall c (l : list Row),
            length (filter (fun r => notnull (cell c r)) l)
            + length (filter (fun r => isnull (cell c r) = true) l) = length l)%nat
    as Hsplit.
  { intros c l. apply length_filter_split. intros r. apply notnull_not_null. }
  split; [apply length_filter|]. split.
  - induction subset as [|c subset IH]; simpl.
    + rewrite filter_all; [lia|]. apply Forall_forall. intros r _. constructor.
    + rewrite (list_filter_iff (complete (c :: subset))
                 (fun r => notnull (cell c r) ∧ complete subset r))
        by (intros r; apply complete_cons).
      rewrite <- list_filter_filter.
      pose proof (Hsplit c (filter (complete subset) (rows df))) as Hs.
      assert (length (filter (fun r => isnull (cell c r) = true)
                        (filter (complete subset) (rows df)))
              ≤ null_count c df)%nat as Hle.
      { unfold null_count.
        trans (length (filter (complete subset)
                         (filter (fun r => isnull (cell c r) = true) (rows df))));
          [|apply length_filter].
        apply Nat.eq_le_incl. f_equal.
        rewrite !list_filter_filter. apply list_filter_iff. tauto. }
      unfold fmap in IH. lia.
  - intros c ->.
    rewrite (list_filter_iff (complete [c]) (fun r => notnull (cell c r))).
    + apply Hsplit.
    + intros r. rewrite complete_cons. unfold complete. rewrite Forall_nil. tauto.
Qed.

Lemma dropna_row_count_witness :
  let out := {| columns := ["total_cases"; "total_deaths"];
                rows := [row "Kenya" 2 [("total_cases", of_Z 5); ("total_deaths", of_Z 1)]] |} in
  dropna ["total_deaths"] two_row_frame = Ok out
  ∧ (length (rows out) + null_count "total_deaths" two_row_frame
     = length (rows two_row_frame))%nat.
Proof.
  intros out.
  assert (dropna ["total_deaths"] two_row_frame = Ok out) as H
    by (vm_compute; reflexivity).
  split; [exact H|].
  exact (proj2 (proj2 (dropna_row_count _ two_row_frame out H)) "total_deaths" eq_refl).
Defined.

(** ** The stages end to end *)

Lemma pipeline_loaded remote local d :
  df (load_observations remote local) = Some d ->
  pipeline remote local
  = (df_clean ← complete_cases (df_countries d); derive_metrics df_clean).
Proof. intros H. unfold pipeline, read_df. by rewrite H. Qed.

Lemma pipeline_Ok_inv remote local out :
  pipeline remote local = Ok out ->
  exists d, df (load_observations remote local) = Some d
    ∧ "total_cases" ∈ columns d ∧ "total_deaths" ∈ columns d
    ∧ out = {| columns := derive_columns (bool_decide ("population" ∈ columns d)) (columns d);
               rows := derive_row (bool_decide ("population" ∈ columns d))
                         <$> filter (complete ["total_cases"; "total_deaths"])
                               (filter (fun r => location r ∈ countries_of_interest)
                                  (rows d)) |}.
Proof.
  destruct (df (load_observations remote local)) as [d|] eqn:Hd;
    [|unfold pipeline, read_df; by rewrite Hd].
  rewrite (pipeline_loaded _ _ d Hd). unfold complete_cases.
  pose proof (dropna_outcome ["total_cases"; "total_deaths"] (df_countries d)) as Ho.
  destruct (dropna _ (df_countries d)) as [cc|e]; [|done].
  destruct Ho as [Hcols ->]. simpl in Hcols.
  apply Forall_cons in Hcols as [Hc Hcols]. apply Forall_cons in Hcols as [Hdt _].
  simpl. rewrite derive_metrics_rows by done. simpl. intros [= <-].
  exists d. by repeat split.
Qed.

(** How the composition of the four stages ends. It raises [NameError] on
    [df] exactly when both reads failed, and [KeyError] with the missing
    totals exactly when the loaded table lacks [total_cases] or
    [total_deaths]. Otherwise it returns the derived rows of the loaded rows
    that belong to a country of interest and have both totals, in their
    order. *)
Theorem pipeline_outcome remote local :
  match pipeline remote local with
  | Ok out =>
      exists d, df (load_observations remote local) = Some d
        ∧ "total_cases" ∈ columns d ∧ "total_deaths" ∈ columns d
        ∧ rows out
          = derive_row (bool_decide ("population" ∈ columns d))
              <$> filter (complete ["total_cases"; "total_deaths"])
                    (filter (fun r => location r ∈ countries_of_interest) (rows d))
  | Raise (NameError n) =>
      n = "df" ∧ exists e1 e2, remote = Failed e1 ∧ local = Failed e2
  | Raise (KeyError missing) =>
      exists d, df (load_observations remote local) = Some d
        ∧ missing = filter (fun c => c ∉ columns d) ["total_cases"; "total_deaths"]
        ∧ missing ≠ []
  end.
Proof.
  destruct (pipeline remote local) as [out|e] eqn:E.
  - apply pipeline_Ok_inv in E as (d & Hd & Hc & Hdt & ->). by exists d.
  - destruct (df (load_observations remote local)) as [d|] eqn:Hd.
    + rewrite (pipeline_loaded _ _ d Hd) in E. unfold complete_cases in E.
      pose proof (dropna_outcome ["total_cases"; "total_deaths"] (df_countries d)) as Ho.
      destruct (dropna _ (df_countries d)) as [cc|e']; simpl in E.
      * destruct Ho as [Hcols ->]. simpl in Hcols.
        apply Forall_cons in Hcols as [Hc Hcols].
        apply Forall_cons in Hcols as [Hdt _].
        by rewrite derive_metrics_rows in E.
      * injection E as <-. destruct Ho as [-> Hne]. by exists d.
    + unfold pipeline, read_df in E. rewrite Hd in E. injection E as <-.
      split; [done|].
      destruct remote as [d|e1]; [done|]. destruct local as [d|e2]; [done|]. eauto.
Qed.

(** Scoping, the case/death filter and the derivation, one after the other:
    every row of the result belongs to one of the entities and has both
    totals, and its [death_rate] is null only for [0/0] and [inf/inf]. *)
Theorem stages_rows entity_names df df_clean out r' :
  complete_cases (scope_to_entities entity_names df) = Ok df_clean ->
  derive_metrics df_clean = Ok out ->
  r' ∈ rows out ->
  location r' ∈ entity_names
  ∧ isnull (cell "total_cases" r') = false
  ∧ isnull (cell "total_deaths" r') = false
  ∧ isnull (cell "death_rate" r')
    = (is_zero (cell "total_deaths" r') && is_zero (cell "total_cases" r'))
      || (is_inf (cell "total_deaths" r') && is_inf (cell "total_cases" r')).
Proof.
  intros Hclean Hout. unfold complete_cases in Hclean.
  pose proof (dropna_outcome ["total_cases"; "total_deaths"]
                (scope_to_entities entity_names df)) as Ho.
  rewrite Hclean in Ho. destruct Ho as [_ ->].
  apply derive_metrics_Ok in Hout. subst out. simpl.
  intros (r & -> & Hr) % list_elem_of_fmap.
  apply list_elem_of_filter in Hr as [Hcomplete Hr].
  apply list_elem_of_filter in Hr as [Hloc _].
  pose proof (proj1 (complete_iff _ _) Hcomplete) as Hnn.
  assert (isnull (cell "total_cases" r) = false) as Hc
    by (apply Hnn; repeat constructor).
  assert (isnull (cell "total_deaths" r) = false) as Hdt
    by (apply Hnn; repeat constructor).
  rewrite derive_row_death_rate, !derive_row_base by done.
  rewrite ratio_100_null. unfold undefined_quotient. rewrite Hc, Hdt.
  set (b := bool_decide _). destruct (derive_row_frame b r) as (-> & _).
  done.
Qed.

Lemma stages_rows_witness :
  let out := {| columns := ["total_cases"; "total_deaths"; "death_rate"];
                rows := derive_row false <$> rows zero_cases_frame |} in
  let r' := derive_row false
              (row "Kenya" 1 [("total_cases", of_Z 0); ("total_deaths", of_Z 5)]) in
  complete_cases (scope_to_entities countries_of_interest zero_cases_frame)
  = Ok zero_cases_frame
  ∧ derive_metrics zero_cases_frame = Ok out
  ∧ r' ∈ rows out
  ∧ isnull (cell "death_rate" r') = false.
Proof.
  intros out r'.
  assert (complete_cases (scope_to_entities countries_of_interest zero_cases_frame)
          = Ok zero_cases_frame) as H1 by (vm_compute; reflexivity).
  assert (derive_metrics zero_cases_frame = Ok out) as H2 by (vm_compute; reflexivity).
  assert (r' ∈ rows out) as H3 by (simpl; left).
  split; [exact H1|]. split; [exact H2|]. split; [exact H3|].
  destruct (stages_rows _ _ _ out r' H1 H2 H3) as (_ & _ & _ & ->).
  reflexivity.
Defined.

(** ** The cells that print a share *)

Section ReportFacts.

Variable format_2f : float64 -> string.

(** The cell that builds [df_clean] stops with [KeyError] when a total is
    no column, and with [ZeroDivisionError] when the totals are columns but
    the scoped table has no row (the share is computed before the copy).
    Otherwise it completes with the complete rows and one printed line. *)
Theorem complete_cases_cell_outcome df_countries :
  match complete_cases_cell format_2f df_countries with
  | Completed df_clean printed =>
      rows df_countries ≠ []
      ∧ complete_cases df_countries = Ok df_clean
      ∧ printed = [records_msg format_2f "both total_cases and total_deaths"
                     (length (rows df_clean)) (length (rows df_countries))]
  | Stopped e =>
      e = KeyError (filter (fun c => c ∉ columns df_countries)
                      ["total_cases"; "total_deaths"])
      ∧ ("total_cases" ∉ columns df_countries ∨ "total_deaths" ∉ columns df_countries)
  | ZeroDivisionError =>
      "total_cases" ∈ columns df_countries ∧ "total_deaths" ∈ columns df_countries
      ∧ rows df_countries = []
  end.
Proof.
  unfold complete_cases_cell, complete_cases.
  pose proof (dropna_outcome ["total_cases"; "total_deaths"] df_countries) as Ho.
  destruct (dropna _ df_countries) as [cc|e].
  - destruct Ho as [Hcols _].
    apply Forall_cons in Hcols as [Hc Hcols]. apply Forall_cons in Hcols as [Hd _].
    destruct (rows df_countries) as [|r l] eqn:E; simpl; done.
  - destruct Ho as [-> Hne]. split; [done|].
    destruct (decide ("total_cases" ∈ columns df_countries)) as [Hc|]; [|by left].
    destruct (decide ("total_deaths" ∈ columns df_countries)) as [Hd|]; [|by right].
    destruct Hne. apply filter_none. repeat constructor; tauto.
Qed.

(** When no row of the table belongs to a country of interest, the cell
    that builds [df_clean] ends in [ZeroDivisionError]. *)
Theorem no_country_of_interest_stops df :
  "total_cases" ∈ columns df -> "total_deaths" ∈ columns df ->
  (forall r, r ∈ rows df -> location r ∉ countries_of_interest) ->
  complete_cases_cell format_2f (df_countries df) = ZeroDivisionError.
Proof.
  intros Hc Hd Hnone. unfold complete_cases_cell, complete_cases.
  rewrite dropna_columns_present by (simpl; repeat constructor; done).
  simpl. rewrite filter_none; [done|]. by apply Forall_forall.
Qed.

(** The vaccination cell on the scoped table never stops with [KeyError].
    Without any vaccination column it completes with the empty frame,
    whatever the rows; with one it ends in [ZeroDivisionError] when the
    scoped table has no row, and otherwise completes with the rows in which
    every available vaccination column is non-null. *)
Theorem vax_cell_outcome df :
  let available := filter (fun c => c ∈ columns df) vax_columns in
  match vax_cell format_2f df (df_countries df) with
  | Completed v printed =>
      df_vax df (df_countries df) = Ok v
      ∧ ((available = [] ∧ v = {| columns := []; rows := [] |}
          ∧ printed = ["No vaccination columns found in the dataset."])
         ∨ (available ≠ [] ∧ rows (df_countries df) ≠ []
            ∧ v = {| columns := columns df;
                     rows := filter (complete available) (rows (df_countries df)) |}))
  | Stopped e => False
  | ZeroDivisionError => available ≠ [] ∧ rows (df_countries df) = []
  end.
Proof.
  intros available. unfold vax_cell, df_vax. fold available.
  destruct available as [|k ks] eqn:E; [by split; [|left]|].
  rewrite dropna_columns_present.
  - destruct (rows (df_countries df)) as [|r l] eqn:Er; simpl; [done|].
    split; [done|]. by right.
  - rewrite <- E. subst available. simpl.
    apply Forall_forall. intros c Hc. by apply list_elem_of_filter in Hc as [? _].
Qed.

End ReportFacts.

Lemma no_country_of_interest_stops_witness :
  let nowhere := {| columns := ["total_cases"; "total_deaths"];
                    rows := [row "Wakanda" 1 [("total_cases", of_Z 5);
                                              ("total_deaths", of_Z 1)]] |} in
  "total_cases" ∈ columns nowhere ∧ "total_deaths" ∈ columns nowhere
  ∧ (forall r, r ∈ rows nowhere -> location r ∉ countries_of_interest)
  ∧ complete_cases_cell (fun _ => "0.00") (df_countries nowhere) = ZeroDivisionError.
Proof.
  intros nowhere.
  assert ("total_cases" ∈ columns nowhere) as H1 by (simpl; left).
  assert ("total_deaths" ∈ columns nowhere) as H2 by (simpl; right; left).
  assert (forall r, r ∈ rows nowhere -> location r ∉ countries_of_interest) as H3.
  { apply Forall_forall. simpl. constructor; [|constructor].
    simpl. intros Hin.
    repeat (apply elem_of_cons in Hin as [Hin|Hin]; [discriminate|]).
    by apply elem_of_nil in Hin. }
  split; [exact H1|]. split; [exact H2|]. split; [exact H3|].
  exact (no_country_of_interest_stops (fun _ => "0.00") nowhere H1 H2 H3).
Defined.

(** ** More on the rolling average *)

(** The rolling average has one value per observation and never looks
    ahead: later observations leave the earlier values as they are. With a
    window of two or more it has no value where the window holds fewer
    finite observations than its size. It can look back further than its
    window: the running sum carries what earlier observations left in it, so
    that the same seven values average to 1 after two large values and to 4
    after two zeros. *)
Theorem rolling_mean_causal w s :
  length (rolling_mean w s) = length s
  ∧ (forall t, rolling_mean w s `prefix_of` rolling_mean w (s ++ t))
  ∧ (forall i, (2 ≤ w)%nat -> (i < length s)%nat ->
       (length (filter (fun x => valid x = true) (window_at w i s)) < w)%nat ->
       rolling_mean w s !! i = Some nan)
  ∧ window_at 7 8 after_large = window_at 7 8 after_zeros
  ∧ rolling_mean 7 after_large !! 8%nat = Some (of_Z 1)
  ∧ rolling_mean 7 after_zeros !! 8%nat = Some (of_Z 4).
Proof.
  split; [apply length_rolling_mean|]. split; [apply rolling_mean_prefix|].
  split; [intros i; apply rolling_mean_few|].
  repeat split; vm_compute; reflexivity.
Qed.

(** ** The smoothing loops *)

Lemma cell_zip_set_cell c c' (s : Series) (l : list Row) :
  c ≠ c' -> (length l ≤ length s)%nat ->
  cell c' <$> zip_with (set_cell c) s l = cell c' <$> l.
Proof.
  intros Hne. revert s. induction l as [|r l IH]; intros [|v s] Hlen; simpl in *;
    try done; try lia.
  rewrite cell_set_cell_ne by done. f_equal. apply IH. lia.
Qed.

Lemma loc_eq_empty country df :
  empty (loc_eq country df) = false <-> exists r, r ∈ rows df ∧ location r = country.
Proof.
  unfold empty, loc_eq; simpl.
  destruct (filter (fun r => location r = country) (rows df)) as [|r l] eqn:E.
  - split; [done|]. intros (r & Hr & Hl).
    assert (r ∈ filter (fun r => location r = country) (rows df)) as Hin
      by (by apply list_elem_of_filter).
    rewrite E in Hin. by apply elem_of_nil in Hin.
  - split; [|done]. intros _. exists r.
    assert (r ∈ filter (fun r => location r = country) (rows df)) as Hin
      by (rewrite E; left).
    apply list_elem_of_filter in Hin. tauto.
Qed.

Lemma smoothing_guard country df :
  negb (empty (loc_eq country df))
    && bool_decide ("new_cases" ∈ columns (loc_eq country df)) = true
  <-> (exists r, r ∈ rows df ∧ location r = country) ∧ "new_cases" ∈ columns df.
Proof.
  rewrite andb_true_iff, negb_true_iff, loc_eq_empty, bool_decide_eq_true. done.
Qed.

Lemma waves_panel_guard df country :
  negb (empty (loc_eq country df))
    && bool_decide ("new_cases" ∈ columns (loc_eq country df)) = true ->
  let cd1 := setitem "new_cases_smoothed"
               (rolling_mean 7 (cell "new_cases" <$> rows (loc_eq country df)))
               (loc_eq country df) in
  waves_panel df country
  = Ok (Some (if decide ("new_deaths" ∈ columns df)
              then setitem "new_deaths_smoothed"
                     (rolling_mean 7 (cell "new_deaths" <$> rows cd1)) cd1
              else cd1)).
Proof.
  intros G cd1. unfold waves_panel. rewrite G.
  apply andb_prop in G as [_ G]. apply bool_decide_eq_true_1 in G.
  rewrite (getitem_elem "new_cases" (loc_eq country df) G).
  change (Ok (cell "new_cases" <$> rows (loc_eq country df)) ≫= _)
    with (if decide ("new_deaths" ∈ columns cd1)
          then new_deaths ← getitem "new_deaths" cd1;
               Ok (Some (setitem "new_deaths_smoothed"
                           (rolling_mean 7 new_deaths) cd1))
          else Ok (Some cd1)).
  assert ("new_deaths" ∈ columns cd1 <-> "new_deaths" ∈ columns df) as Hiff.
  { subst cd1. simpl. rewrite elem_of_add_label. split; [by intros [[=]|]|auto]. }
  destruct (decide ("new_deaths" ∈ columns cd1)) as [Hnd|Hnd].
  - rewrite (getitem_elem "new_deaths" cd1 Hnd).
    by rewrite decide_True by (by apply Hiff).
  - by rewrite decide_False by (by rewrite <- Hiff).
Qed.

(** Neither smoothing loop body ever raises: the guard protects the read
    of [new_cases], and the inner test that of [new_deaths]. Both draw a
    country exactly when it has a row and the table has a [new_cases]
    column. *)
Theorem smoothing_never_raises df country :
  exists o1 o2,
    daily_new_cases df country = Ok o1
    ∧ waves_panel df country = Ok o2
    ∧ (is_Some o1 <-> (exists r, r ∈ rows df ∧ location r = country)
                      ∧ "new_cases" ∈ columns df)
    ∧ (is_Some o2 <-> is_Some o1).
Proof.
  destruct (negb (empty (loc_eq country df))
            && bool_decide ("new_cases" ∈ columns (loc_eq country df))) eqn:G.
  - rewrite (daily_new_cases_guard _ _ G), (waves_panel_guard _ _ G).
    do 2 eexists. split; [done|]. split; [done|].
    rewrite <- smoothing_guard, G. split; [|done]. split; by eauto.
  - exists None, None. unfold daily_new_cases, waves_panel. rewrite G.
    split; [done|]. split; [done|]. rewrite <- smoothing_guard, G.
    split; [|done]. split; [by intros [? [=]]|done].
Qed.

(** The waves cell smooths [new_deaths] like [new_cases], over the same
    rows: with a [new_deaths] column the output has [new_deaths_smoothed],
    null at the first 6 positions and wherever the trailing 7 [new_deaths]
    include a null or an infinite value; where the trailing 7 are finite and
    the [new_deaths] values of the country so far are counts (null, infinite
    or integers of magnitude at most [2^50]) it is the arithmetic mean of the
    trailing 7. Without that column the cell returns what the
    daily-new-cases cell returns. *)
Theorem new_deaths_smoothed_windows df country out i r' :
  waves_panel df country = Ok (Some out) ->
  rows out !! i = Some r' ->
  let seq := filter (fun r => location r = country) (rows df) in
  let window := take 7 (drop (i - 6) seq) in
  ("new_deaths" ∈ columns df ->
     "new_deaths_smoothed" ∈ columns out
     ∧ ((i < 6)%nat -> cell "new_deaths_smoothed" r' = nan)
     ∧ ((6 ≤ i)%nat -> Exists (fun r => valid (cell "new_deaths" r) = false) window ->
        cell "new_deaths_smoothed" r' = nan)
     ∧ ((6 ≤ i)%nat ->
        Forall (fun r => is_count (cell "new_deaths" r) = true) (take (S i) seq) ->
        Forall (fun r => valid (cell "new_deaths" r) = true) window ->
        cell "new_deaths_smoothed" r' = arithmetic_mean (cell "new_deaths" <$> window)))
  ∧ (("new_deaths" ∉ columns df) ->
     daily_new_cases df country = Ok (Some out)).
Proof.
  intros Hout Hr' seq window.
  destruct (negb (empty (loc_eq country df))
            && bool_decide ("new_cases" ∈ columns (loc_eq country df))) eqn:G;
    [|unfold waves_panel in Hout; rewrite G in Hout; discriminate].
  rewrite (waves_panel_guard _ _ G) in Hout.
  set (cd1 := setitem "new_cases_smoothed" _ (loc_eq country df)) in Hout.
  split; intros Hnd.
  - rewrite decide_True in Hout by done. injection Hout as <-.
    split; [simpl; rewrite elem_of_add_label; auto|].
    apply (setitem_rolling_lookup "new_deaths" "new_deaths_smoothed" cd1)
      in Hr' as (r1 & v & Hr1 & Hv & ->).
    rewrite cell_set_cell_eq.
    assert (cell "new_deaths" <$> rows cd1 = cell "new_deaths" <$> seq) as Heq.
    { subst cd1. simpl. apply cell_zip_set_cell; [done|].
      by rewrite length_rolling_mean, length_fmap. }
    rewrite Heq in Hv.
    exact (rolling_cases "new_deaths" seq i v Hv).
  - rewrite decide_False in Hout by done. injection Hout as <-.
    by rewrite (daily_new_cases_guard _ _ G).
Qed.

(** ** Line charts *)

Lemma for_each_Ok {A B} (body : A -> result (option B)) (f : A -> option B) l :
  (forall x, x ∈ l -> body x = Ok (f x)) -> for_each body l = Ok (omap f l).
Proof.
  induction l as [|x l IH]; intros H; simpl; [done|].
  rewrite (H x) by left. simpl.
  rewrite IH by (intros y Hy; apply H; by right). simpl.
  by destruct (f x).
Qed.

(** A loop stops at the first body that raises; bodies that draw nothing
    before it leave no trace. *)
Lemma for_each_skip_or_raise {A B} (body : A -> result (option B)) e (P : A -> Prop)
    `{forall x, Decision (P x)} l :
  (forall x, x ∈ l -> P x -> body x = Raise e) ->
  (forall x, x ∈ l -> ¬ P x -> body x = Ok None) ->
  for_each body l = if decide (Exists P l) then Raise e else Ok [].
Proof.
  induction l as [|x l IH]; intros Hr Hs.
  - destruct (decide (Exists P [])) as [Hex|Hex]; [by apply Exists_nil in Hex|done].
  - destruct (decide (Exists P (x :: l))) as [Hex|Hex];
      destruct (decide (P x)) as [HP|HP]; cbn [for_each].
    + rewrite (Hr x) by (done || left). done.
    + rewrite (Hs x) by (done || left).
      rewrite IH by (intros y Hy ?; first [apply Hr | apply Hs]; [by right|done]).
      apply Exists_cons in Hex as [?|Hex]; [done|]. by rewrite decide_True.
    + destruct Hex. by left.
    + rewrite (Hs x) by (done || left).
      rewrite IH by (intros y Hy ?; first [apply Hr | apply Hs]; [by right|done]).
      rewrite decide_False; [done|]. intros ?. apply Hex. by right.
Qed.

Lemma zip_columns c (l : list Row) :
  zip (date <$> l) (cell c <$> l) = (fun r => (date r, cell c r)) <$> l.
Proof. by rewrite zip_with_fmap_l, zip_with_fmap_r, zip_with_diag. Qed.

Lemma has_rows_empty country df :
  country ∈ location <$> rows df <-> empty (loc_eq country df) = false.
Proof.
  rewrite loc_eq_empty, list_elem_of_fmap. split; intros (r & H1 & H2); eauto.
Qed.

Lemma country_line_present column df country :
  column ∈ columns df ->
  country_line column df country
  = Ok (if decide (country ∈ location <$> rows df)
        then Some (line_of column df country) else None).
Proof.
  intros Hc. unfold country_line.
  destruct (decide (country ∈ location <$> rows df)) as [Hin|Hin].
  - rewrite (proj1 (has_rows_empty _ _) Hin). simpl.
    rewrite (getitem_elem column (loc_eq country df) Hc). simpl.
    by rewrite zip_columns.
  - destruct (empty (loc_eq country df)) eqn:E; [done|].
    by apply has_rows_empty in E.
Qed.

Lemma filter_or_disjoint {A} (P Q : A -> Prop) `{forall x, Decision (P x)}
    `{forall x, Decision (Q x)} (l : list A) :
  (forall x, P x -> Q x -> False) ->
  filter (fun x => P x ∨ Q x) l ≡ₚ filter P l ++ filter Q l.
Proof.
  intros Hdisj. induction l as [|x l IH]; [done|].
  rewrite !filter_cons.
  destruct (decide (P x)) as [HP|HP], (decide (Q x)) as [HQ|HQ].
  - destruct (Hdisj x HP HQ).
  - rewrite decide_True by auto. simpl. by rewrite IH.
  - rewrite decide_True by auto. rewrite IH. apply Permutation_middle.
  - rewrite decide_False by tauto. done.
Qed.

(** The rows of distinct countries, country by country, are the rows of
    these countries. *)
Lemma rows_by_country (ks : list string) (l : list Row) :
  NoDup ks ->
  concat ((fun k => filter (fun r => location r = k) l) <$> ks)
  ≡ₚ filter (fun r => location r ∈ ks) l.
Proof.
  induction 1 as [|k ks Hk _ IH]; simpl.
  - rewrite filter_none; [done|]. apply Forall_forall. intros r _ Hin.
    by apply elem_of_nil in Hin.
  - rewrite IH.
    rewrite (list_filter_iff (fun r => location r ∈ k :: ks)
               (fun r => location r = k ∨ location r ∈ ks))
      by (intros r; apply elem_of_cons).
    symmetry. apply filter_or_disjoint. intros r -> Hin. by apply Hk.
Qed.

Lemma countries_of_interest_NoDup : NoDup countries_of_interest.
Proof.
  apply (bool_decide_unpack (NoDup countries_of_interest)). vm_compute. exact I.
Qed.

Lemma chart_over_time_Ok column df :
  column ∈ columns df ->
  chart_over_time column df = Ok (omap (line_if_rows column df) countries_of_interest).
Proof.
  intros Hc. apply for_each_Ok. intros c _. by apply country_line_present.
Qed.

Lemma lines_labels column df (ks : list string) :
  label <$> omap (line_if_rows column df) ks
  = filter (fun c => c ∈ location <$> rows df) ks.
Proof.
  induction ks as [|c cs IH]; [done|].
  csimpl. rewrite filter_cons. unfold line_if_rows at 1.
  destruct (decide (c ∈ location <$> rows df)); csimpl; by rewrite IH.
Qed.

Lemma lines_points column df (ks : list string) :
  concat (points <$> omap (line_if_rows column df) ks)
  = (fun r => (date r, cell column r))
      <$> concat ((fun k => filter (fun r => location r = k) (rows df)) <$> ks).
Proof.
  induction ks as [|c cs IH]; [done|].
  csimpl. rewrite fmap_app, <- IH. unfold line_if_rows at 1.
  destruct (decide (c ∈ location <$> rows df)) as [Hin|Hin]; [done|].
  rewrite filter_none; [done|]. apply Forall_forall. intros r Hr Hl.
  apply Hin. rewrite <- Hl. by apply list_elem_of_fmap_2.
Qed.

(** The "over time" charts on a table that has the column: one line per
    country of interest that has a row, in the order of the list; each line
    holds the (date, value) pairs of its country in table order; and when
    every row belongs to a country of interest, as after scoping, every row
    of the table is drawn exactly once. *)
Theorem chart_over_time_lines column df :
  column ∈ columns df ->
  exists lines, chart_over_time column df = Ok lines
    ∧ label <$> lines
      = filter (fun c => c ∈ location <$> rows df) countries_of_interest
    ∧ (forall ln, ln ∈ lines -> ln = line_of column df (label ln))
    ∧ ((forall r, r ∈ rows df -> location r ∈ countries_of_interest) ->
       concat (points <$> lines) ≡ₚ (fun r => (date r, cell column r)) <$> rows df).
Proof.
  intros Hc. eexists. split; [by apply chart_over_time_Ok|].
  split; [apply lines_labels|]. split.
  - intros ln (c & Hc' & Hf) % list_elem_of_omap. unfold line_if_rows in Hf.
    destruct (decide _); [|done]. by injection Hf as <-.
  - intros Hall. rewrite lines_points.
    rewrite (rows_by_country _ _ countries_of_interest_NoDup).
    rewrite filter_all; [done|]. by apply Forall_forall.
Qed.

Lemma chart_over_time_lines_witness :
  "total_cases" ∈ columns latest_first_frame
  ∧ exists lines, chart_over_time "total_cases" latest_first_frame = Ok lines
      ∧ label <$> lines = ["Kenya"].
Proof.
  assert ("total_cases" ∈ columns latest_first_frame) as H by (simpl; left).
  split; [exact H|].
  destruct (chart_over_time_lines "total_cases" latest_first_frame H)
    as (lines & Hlines & Hlabels & _).
  exists lines. split; [exact Hlines|]. rewrite Hlabels. vm_compute. reflexivity.
Defined.

(** On a table without the column, an "over time" chart raises [KeyError]
    at the first country of interest that has a row, and draws nothing
    without raising when no country of interest has one. *)
Theorem chart_over_time_missing_column column df :
  column ∉ columns df ->
  chart_over_time column df
  = if decide (Exists (fun c => c ∈ location <$> rows df) countries_of_interest)
    then Raise (KeyError [column]) else Ok [].
Proof.
  intros Hc. unfold chart_over_time. apply for_each_skip_or_raise.
  - intros c _ Hin. unfold country_line.
    rewrite (proj1 (has_rows_empty _ _) Hin). simpl.
    unfold getitem. simpl. by rewrite decide_False.
  - intros c _ Hin. unfold country_line.
    destruct (empty (loc_eq c df)) eqn:E; [done|]. by apply has_rows_empty in E.
Qed.

Lemma chart_over_time_missing_column_witness :
  ("population" ∉ columns latest_first_frame)
  ∧ chart_over_time "population" latest_first_frame = Raise (KeyError ["population"]).
Proof.
  assert ("population" ∉ columns latest_first_frame) as H.
  { simpl. intros Hin.
    repeat (apply elem_of_cons in Hin as [Hin|Hin]; [discriminate|]).
    by apply elem_of_nil in Hin. }
  split; [exact H|].
  rewrite (chart_over_time_missing_column "population" latest_first_frame H).
  vm_compute. reflexivity.
Defined.

Lemma guarded_line_present column df country :
  column ∈ columns df ->
  guarded_country_line column df country = country_line column df country.
Proof.
  intros Hc. unfold guarded_country_line, country_line. simpl.
  by rewrite (bool_decide_eq_true_2 _ Hc), andb_true_r.
Qed.

Lemma for_each_ext {A B} (f g : A -> result (option B)) l :
  (forall x, f x = g x) -> for_each f l = for_each g l.
Proof. intros H. induction l as [|x l IH]; simpl; [done|]. by rewrite H, IH. Qed.

Lemma omap_none {A B} (l : list A) : omap (fun _ : A => @None B) l = [].
Proof. induction l as [|x l IH]; [done|]. done. Qed.

(** The death-rate chart tests the column country by country, so it never
    raises: with the column it is the "over time" chart, without it nothing
    is drawn. The per-million cells test the column once for the whole cell
    and then never raise either. *)
Theorem guarded_charts column df :
  for_each (guarded_country_line column df) countries_of_interest
  = (if decide (column ∈ columns df) then chart_over_time column df else Ok [])
  ∧ (exists lines,
       for_each (guarded_country_line column df) countries_of_interest = Ok lines)
  ∧ (exists drawn, chart_if_present column df = Ok drawn
       ∧ (is_Some drawn <-> column ∈ columns df)).
Proof.
  unfold chart_if_present.
  destruct (decide (column ∈ columns df)) as [Hc|Hc].
  - rewrite (for_each_ext _ (country_line column df))
      by (intros c; by apply guarded_line_present).
    fold (chart_over_time column df). rewrite chart_over_time_Ok by done.
    split; [done|]. split; [by eexists|]. eexists. split; [done|]. by split.
  - rewrite (for_each_Ok _ (fun _ => None)).
    + rewrite omap_none. split; [done|]. split; [by eexists|].
      exists None. split; [done|]. split; [by intros [? [=]]|done].
    + intros c _. unfold guarded_country_line. simpl.
      by rewrite (bool_decide_eq_false_2 _ Hc), andb_false_r.
Qed.

Lemma new_deaths_smoothed_windows_witness :
  let cd1 := setitem "new_cases_smoothed"
               (rolling_mean 7 (cell "new_cases" <$> rows waves_frame))
               waves_frame in
  let out := setitem "new_deaths_smoothed"
               (rolling_mean 7 (cell "new_deaths" <$> rows cd1)) cd1 in
  let r' := set_cell "new_deaths_smoothed" (of_Z 10)
              (set_cell "new_cases_smoothed" (of_Z 5)
                 (row "India" 8 [("new_cases", of_Z 8); ("new_deaths", of_Z 16)])) in
  waves_panel waves_frame "India" = Ok (Some out)
  ∧ rows out !! 7%nat = Some r'
  ∧ cell "new_deaths_smoothed" r'
    = arithmetic_mean [of_Z 4; of_Z 6; of_Z 8; of_Z 10; of_Z 12; of_Z 14; of_Z 16]
  ∧ arithmetic_mean [of_Z 4; of_Z 6; of_Z 8; of_Z 10; of_Z 12; of_Z 14; of_Z 16]
    = of_Z 10.
Proof.
  intros cd1 out r'.
  assert (waves_panel waves_frame "India" = Ok (Some out)) as H1
    by (vm_compute; reflexivity).
  assert (rows out !! 7%nat = Some r') as H2 by (vm_compute; reflexivity).
  split; [exact H1|]. split; [exact H2|]. split; [|vm_compute; reflexivity].
  destruct (new_deaths_smoothed_windows waves_frame "India" out 7%nat r' H1 H2)
    as [Hpresent _].
  destruct Hpresent as (_ & _ & _ & Hmean); [simpl; right; left|].
  rewrite Hmean; [reflexivity|lia| |];
    match goal with |- ?G => apply (bool_decide_unpack G) end; vm_compute; exact I.
Defined.

(** ** The order of group keys *)

Lemma leb_cons a s1 b s2 :
  String.leb (String a s1) (String b s2)
  = match Ascii.compare a b with
    | Eq => String.leb s1 s2
    | Lt => true
    | Gt => false
    end.
Proof.
  unfold String.leb. simpl. by destruct (Ascii.compare a b).
Qed.

Lemma leb_trans s1 : forall s2 s3,
  String.leb s1 s2 = true -> String.leb s2 s3 = true -> String.leb s1 s3 = true.
Proof.
  induction s1 as [|a s1 IH]; intros [|b s2] [|c s3]; try done.
  rewrite !leb_cons. unfold Ascii.compare.
  destruct (N.compare_spec (Ascii.N_of_ascii a) (Ascii.N_of_ascii b)) as [Hab|Hab|Hab];
    destruct (N.compare_spec (Ascii.N_of_ascii b) (Ascii.N_of_ascii c)) as [Hbc|Hbc|Hbc];
    destruct (N.compare_spec (Ascii.N_of_ascii a) (Ascii.N_of_ascii c)) as [Hac|Hac|Hac];
    try done; try lia.
  apply IH.
Qed.

#[export] Instance str_le_total : Total str_le.
Proof.
  intros a b. unfold str_le.
  destruct (String.leb_total a b) as [->| ->]; [by left|by right].
Qed.

#[export] Instance str_le_transitive : Transitive str_le.
Proof.
  intros a b c. unfold str_le. intros H1 H2.
  apply Is_true_true. apply Is_true_true in H1, H2. by apply (leb_trans a b c).
Qed.

#[export] Instance str_le_antisymm : AntiSymm eq str_le.
Proof.
  intros a b. unfold str_le. intros H1 H2.
  apply Is_true_true in H1, H2. by apply String.leb_antisym.
Qed.

#[export] Instance date_le_antisymm : AntiSymm eq date_le.
Proof. intros [x|] [y|]; simpl; try done. intros. f_equal. lia. Qed.

Lemma remove_dups_Permutation (l1 l2 : list string) :
  l1 ≡ₚ l2 -> remove_dups l1 ≡ₚ remove_dups l2.
Proof.
  intros H. apply NoDup_Permutation; try apply NoDup_remove_dups.
  intros x. by rewrite !elem_of_remove_dups, H.
Qed.

(** The keys depend on which locations occur, not on the order of rows. *)
Lemma group_keys_Permutation (l1 l2 : list Row) :
  l1 ≡ₚ l2 -> group_keys l1 = group_keys l2.
Proof.
  intros H. unfold group_keys.
  apply (StronglySorted_unique str_le);
    try apply (StronglySorted_merge_sort str_le).
  rewrite !merge_sort_Permutation. apply remove_dups_Permutation. by rewrite H.
Qed.

(** ** More on the latest row per country *)

Section LatestOrder.

Variable sort_values : list Row -> list Row.
Hypothesis sort_values_perm : forall l, sort_values l ≡ₚ l.

(** The result of [latest_data] keeps the labels of the table and has one
    row per location that occurs in it, in ascending order of location;
    a table without rows gives a result without rows. *)
Theorem latest_data_keys_sorted df :
  columns (latest_data sort_values df) = columns df
  ∧ StronglySorted str_le (location <$> rows (latest_data sort_values df))
  ∧ NoDup (location <$> rows (latest_data sort_values df))
  ∧ (forall k, k ∈ location <$> rows (latest_data sort_values df)
               <-> k ∈ location <$> rows df)
  ∧ (rows df = [] -> rows (latest_data sort_values df) = []).
Proof.
  rewrite latest_data_keys. split; [done|].
  split; [apply (StronglySorted_merge_sort str_le)|].
  split; [apply group_keys_NoDup|]. split.
  - intros k. rewrite group_keys_elem, list_elem_of_fmap.
    split; intros (r & H1 & H2).
    + exists r. by rewrite <- sort_values_perm.
    + exists r. by rewrite sort_values_perm.
  - intros Hnil. apply fmap_nil_inv with (f := location).
    rewrite latest_data_keys, (group_keys_Permutation _ (rows df)) by done.
    by rewrite Hnil.
Qed.

End LatestOrder.

Lemma latest_data_keys_sorted_witness :
  (forall l, merge_sort by_date l ≡ₚ l)
  ∧ StronglySorted str_le
      (location <$> rows (latest_data (merge_sort by_date) late_gap_frame)).
Proof.
  assert (forall l, merge_sort by_date l ≡ₚ l) as H
    by exact (merge_sort_Permutation by_date).
  split; [exact H|].
  exact (proj1 (proj2 (latest_data_keys_sorted (merge_sort by_date) H late_gap_frame))).
Defined.

Section LatestUnique.

Variables sort1 sort2 : list Row -> list Row.
Hypothesis sort1_perm : forall l, sort1 l ≡ₚ l.
Hypothesis sort1_sorted : forall l, Sorted by_date (sort1 l).
Hypothesis sort2_perm : forall l, sort2 l ≡ₚ l.
Hypothesis sort2_sorted : forall l, Sorted by_date (sort2 l).

(** When a location and a date identify a row, the latest rows depend
    neither on the order in which the table holds its rows nor on the
    sorting algorithm. *)
Theorem latest_data_order_independent df1 df2 :
  columns df1 = columns df2 ->
  rows df1 ≡ₚ rows df2 ->
  (forall r1 r2, r1 ∈ rows df1 -> r2 ∈ rows df1 ->
     location r1 = location r2 -> date r1 = date r2 -> r1 = r2) ->
  latest_data sort1 df1 = latest_data sort2 df2.
Proof.
  intros Hcols Hperm Hkey. unfold latest_data. rewrite Hcols.
  rewrite (group_keys_Permutation (sort1 (rows df1)) (sort2 (rows df2)))
    by (by rewrite sort1_perm, sort2_perm).
  f_equal. apply list_fmap_ext. intros _ k _. f_equal.
  apply (StronglySorted_unique_strong by_date).
  - intros r1 r2 Hr1 Hr2 H12 H21.
    apply (date_ordered_elem sort1 sort1_perm) in Hr1 as [Hr1 Hl1].
    apply (date_ordered_elem sort2 sort2_perm) in Hr2 as [Hr2 Hl2].
    rewrite <- Hperm in Hr2.
    apply Hkey; try done; [congruence|].
    by apply (anti_symm date_le).
  - by apply date_ordered_sorted.
  - by apply date_ordered_sorted.
  - unfold date_ordered. by rewrite sort1_perm, sort2_perm, Hperm.
Qed.

End LatestUnique.

Lemma NoDup_fmap_eq {A B} (f : A -> B) (l : list A) x y :
  NoDup (f <$> l) -> x ∈ l -> y ∈ l -> f x = f y -> x = y.
Proof.
  induction l as [|a l IH]; csimpl; intros Hnd Hx Hy Hf.
  - by apply elem_of_nil in Hx.
  - apply NoDup_cons in Hnd as [Ha Hnd].
    apply elem_of_cons in Hx as [->|Hx]; apply elem_of_cons in Hy as [->|Hy].
    + done.
    + destruct Ha. rewrite Hf. by apply list_elem_of_fmap_2.
    + destruct Ha. rewrite <- Hf. by apply list_elem_of_fmap_2.
    + by apply IH.
Qed.

Lemma latest_data_order_independent_witness :
  (forall l, merge_sort by_date l ≡ₚ l)
  ∧ (forall l, Sorted by_date (merge_sort by_date l))
  ∧ columns latest_first_frame = columns earliest_first_frame
  ∧ rows latest_first_frame ≡ₚ rows earliest_first_frame
  ∧ (forall r1 r2, r1 ∈ rows latest_first_frame -> r2 ∈ rows latest_first_frame ->
       location r1 = location r2 -> date r1 = date r2 -> r1 = r2)
  ∧ latest_data (merge_sort by_date) latest_first_frame
    = latest_data (merge_sort by_date) earliest_first_frame.
Proof.
  assert (forall l, merge_sort by_date l ≡ₚ l) as H1
    by exact (merge_sort_Permutation by_date).
  assert (forall l, Sorted by_date (merge_sort by_date l)) as H2
    by exact (Sorted_merge_sort by_date).
  assert (columns latest_first_frame = columns earliest_first_frame) as H3
    by reflexivity.
  assert (rows latest_first_frame ≡ₚ rows earliest_first_frame) as H4.
  { change (rows latest_first_frame) with (reverse (rows earliest_first_frame)).
    apply reverse_Permutation. }
  assert (forall r1 r2, r1 ∈ rows latest_first_frame -> r2 ∈ rows latest_first_frame ->
            location r1 = location r2 -> date r1 = date r2 -> r1 = r2) as H5.
  { intros r1 r2 Hr1 Hr2 _. apply (NoDup_fmap_eq date (rows latest_first_frame)); try done.
    apply (bool_decide_unpack (NoDup (date <$> rows latest_first_frame))).
    vm_compute. exact I. }
  split; [exact H1|]. split; [exact H2|]. split; [exact H3|]. split; [exact H4|].
  split; [exact H5|].
  exact (latest_data_order_independent (merge_sort by_date) (merge_sort by_date)
           H1 H2 H1 H2 latest_first_frame earliest_first_frame H3 H4 H5).
Defined.

(** ** Counts *)

Lemma sum_list_Permutation (l k : list nat) : l ≡ₚ k -> sum_list l = sum_list k.
Proof. induction 1; simpl; lia. Qed.

Lemma occurrences_cons k x (s : list string) :
  occurrences k (x :: s)
  = ((if decide (x = k) then 1 else 0) + occurrences k s)%nat.
Proof. unfold occurrences. rewrite filter_cons. by destruct (decide (x = k)). Qed.

Lemma occurrences_pos k (s : list string) : k ∈ s <-> (0 < occurrences k s)%nat.
Proof.
  induction s as [|x s IH]; [by rewrite elem_of_nil; unfold occurrences; simpl; lia|].
  rewrite occurrences_cons, elem_of_cons, IH.
  destruct (decide (x = k)) as [->|Hne]; [split; [lia|auto]|].
  split; [intros [->|?]; [done|lia]|]. intros H. right. simpl in H. lia.
Qed.

Lemma sum_indicator x (ks : list string) :
  NoDup ks ->
  sum_list ((fun k => if decide (x = k) then 1 else 0)%nat <$> ks)
  = (if decide (x ∈ ks) then 1 else 0)%nat.
Proof.
  induction 1 as [|k ks Hk _ IH].
  - destruct (decide (x ∈ [])) as [Hin|Hin]; [by apply elem_of_nil in Hin|done].
  - destruct (decide (x ∈ k :: ks)) as [Hin|Hin]; csimpl; rewrite IH;
      destruct (decide (x = k)) as [Heq|Hne];
      destruct (decide (x ∈ ks)) as [Hin'|Hin']; try done; try (by subst);
      exfalso;
      first [ by apply elem_of_cons in Hin as [?|?]
            | by apply Hin; subst; left
            | by apply Hin; right ].
Qed.

Lemma sum_occurrences (ks s : list string) :
  NoDup ks -> (forall x, x ∈ s -> x ∈ ks) ->
  sum_list ((fun k => occurrences k s) <$> ks) = length s.
Proof.
  intros Hnd. induction s as [|x s IH]; intros Hall.
  - unfold occurrences. simpl. clear. induction ks as [|k ks IH]; [done|].
    csimpl. by rewrite IH.
  - simpl. rewrite <- IH by (intros y Hy; apply Hall; by right).
    assert (sum_list ((fun k => occurrences k (x :: s)) <$> ks)
            = sum_list ((fun k => if decide (x = k) then 1 else 0)%nat <$> ks)
              + sum_list ((fun k => occurrences k s) <$> ks))%nat as ->.
    { clear. induction ks as [|k ks IH]; [done|].
      csimpl. rewrite IH, occurrences_cons. lia. }
    rewrite sum_indicator by done.
    rewrite decide_True by (apply Hall; by left). done.
Qed.

#[export] Instance count_ge_dec a b : Decision (count_ge a b).
Proof. unfold count_ge. apply _. Defined.

#[export] Instance count_ge_total : Total count_ge.
Proof. intros a b. unfold count_ge. lia. Qed.

Lemma occurrences_location k (l : list Row) :
  occurrences k (location <$> l) = length (filter (fun r => location r = k) l).
Proof.
  induction l as [|r l IH]; [done|].
  csimpl. rewrite occurrences_cons, filter_cons, IH.
  by destruct (decide (location r = k)).
Qed.

Lemma fst_fmap_pair {A B} (g : A -> B) (l : list A) :
  ((fun k => (k, g k)) <$> l).*1 = l.
Proof. induction l as [|x l IH]; [done|]. csimpl. by rewrite IH. Qed.

Lemma snd_fmap_pair {A B} (g : A -> B) (l : list A) :
  ((fun k => (k, g k)) <$> l).*2 = g <$> l.
Proof. induction l as [|x l IH]; [done|]. csimpl. by rewrite IH. Qed.

Section CountFacts.

Variable sort_descending : list (string * nat) -> list (string * nat).
Hypothesis sort_descending_perm : forall l, sort_descending l ≡ₚ l.
Hypothesis sort_descending_sorted : forall l, Sorted count_ge (sort_descending l).

(** [country_counts] lists each location that occurs once, with its number
    of rows, the largest count first: a country without rows is not listed
    (there is no zero count), and the counts add up to the number of rows. *)
Theorem country_counts_spec df :
  NoDup (country_counts sort_descending df).*1
  ∧ (forall k n, (k, n) ∈ country_counts sort_descending df
       <-> k ∈ location <$> rows df
           ∧ n = length (filter (fun r => location r = k) (rows df)))
  ∧ (forall k n, (k, n) ∈ country_counts sort_descending df -> (1 ≤ n)%nat)
  ∧ sum_list (country_counts sort_descending df).*2 = length (rows df)
  ∧ Sorted count_ge (country_counts sort_descending df).
Proof.
  unfold country_counts, value_counts.
  set (s := location <$> rows df).
  assert (forall k n, (k, n) ∈ sort_descending ((fun k => (k, occurrences k s))
                                                   <$> remove_dups s)
            <-> k ∈ s ∧ n = occurrences k s) as Hin.
  { intros k n. rewrite sort_descending_perm, list_elem_of_fmap. split.
    - intros (k' & Heq & Hk). injection Heq as -> ->.
      rewrite elem_of_remove_dups in Hk. by split.
    - intros [Hk ->]. exists k. split; [done|]. by rewrite elem_of_remove_dups. }
  split; [|split; [|split; [|split]]].
  - rewrite sort_descending_perm, fst_fmap_pair. apply NoDup_remove_dups.
  - intros k n. rewrite Hin. subst s. by rewrite occurrences_location.
  - intros k n [Hk ->] % Hin. apply occurrences_pos in Hk. lia.
  - rewrite (sum_list_Permutation _ ((fun k => occurrences k s) <$> remove_dups s)).
    + rewrite sum_occurrences; [subst s; by rewrite length_fmap|apply NoDup_remove_dups|].
      intros x Hx. by rewrite elem_of_remove_dups.
    + by rewrite sort_descending_perm, snd_fmap_pair.
  - apply sort_descending_sorted.
Qed.


End CountFacts.

Lemma country_counts_spec_witness :
  (forall l, merge_sort count_ge l ≡ₚ l)
  ∧ (forall l, Sorted count_ge (merge_sort count_ge l))
  ∧ sum_list (country_counts (merge_sort count_ge) gap_frame).*2
    = length (rows gap_frame).
Proof.
  assert (forall l, merge_sort count_ge l ≡ₚ l) as H1
    by exact (merge_sort_Permutation count_ge).
  assert (forall l, Sorted count_ge (merge_sort count_ge l)) as H2
    by exact (Sorted_merge_sort count_ge).
  split; [exact H1|]. split; [exact H2|].
  destruct (country_counts_spec (merge_sort count_ge) H1 H2 gap_frame)
    as (_ & _ & _ & Hsum & _).
  exact Hsum.
Defined.


(** The counts on the ten-day sample, by evaluation. *)
Example counts_on_gap_frame :
  country_counts (merge_sort count_ge) gap_frame = [("Kenya", 10%nat)]
  ∧ missing_shown (merge_sort count_ge) gap_frame = [("new_cases", 1%nat)]
  ∧ missing_shown (merge_sort count_ge) undated_frame
    = [("date", 2%nat); ("total_deaths", 1%nat)].
Proof. repeat split; vm_compute; reflexivity. Qed.

(** ** Column assignment *)

(** After [df[c] = s] with one value per row, [df[c]] reads [s] back and
    every other label reads, or fails to read, as before. *)
Theorem getitem_setitem c (s : Series) df :
  length s = length (rows df) ->
  getitem c (setitem c s df) = Ok s
  ∧ forall c', c' ≠ c -> getitem c' (setitem c s df) = getitem c' df.
Proof.
  intros Hlen. split.
  - rewrite getitem_elem by (simpl; rewrite elem_of_add_label; auto).
    simpl. f_equal. revert s Hlen.
    induction (rows df) as [|r l IH]; intros [|v s] Hlen; simpl in *; try done.
    rewrite cell_set_cell_eq. f_equal. apply IH. lia.
  - intros c' Hne. unfold getitem. simpl.
    destruct (decide (c' ∈ columns df)) as [Hin|Hin].
    + rewrite decide_True by (rewrite elem_of_add_label; auto).
      f_equal. apply cell_zip_set_cell; [done|lia].
    + rewrite decide_False; [done|]. rewrite elem_of_add_label. tauto.
Qed.

Lemma getitem_setitem_witness :
  length [of_Z 7; of_Z 9] = length (rows two_row_frame)
  ∧ getitem "population" (setitem "population" [of_Z 7; of_Z 9] two_row_frame)
    = Ok [of_Z 7; of_Z 9].
Proof.
  assert (length [of_Z 7; of_Z 9] = length (rows two_row_frame)) as H by reflexivity.
  split; [exact H|].
  exact (proj1 (getitem_setitem "population" [of_Z 7; of_Z 9] two_row_frame H)).
Defined.

(** ** The loading cell *)

(** The loading cell never lets an exception out. It binds [df] unless both
    reads fail, to the remote table when the remote read succeeds, whatever
    the local file would give, and to the local table otherwise; it prints
    one line after a remote success, three after a local one and four after
    two failures. *)
Theorem load_observations_fallback remote local :
  let l := load_observations remote local in
  raised l = None
  ∧ (df l = None <-> exists e1 e2, remote = Failed e1 ∧ local = Failed e2)
  ∧ (forall d, remote = Loaded d ->
       forall local', load_observations remote local' = l)
  ∧ (forall d, df l = Some d -> remote = Loaded d
       ∨ (exists e, remote = Failed e) ∧ local = Loaded d)
  ∧ length (stdout l)
    = match remote, local with
      | Loaded _, _ => 1%nat
      | Failed _, Loaded _ => 3%nat
      | Failed _, Failed _ => 4%nat
      end.
Proof.
  destruct remote as [d|e1]; [|destruct local as [d|e2]]; simpl.
  - repeat split; try done.
    + by intros (e1 & e2 & ? & _).
    + intros d' [= ->]. by left.
  - repeat split; try done.
    + by intros (e1' & e2 & _ & ?).
    + intros d' [= ->]. right. eauto.
  - repeat split; try done. by eauto.
Qed.

(** ** Scoping and the per-country computations *)

Lemma loc_eq_scope entity_names df country :
  country ∈ entity_names ->
  loc_eq country (scope_to_entities entity_names df) = loc_eq country df.
Proof.
  intros Hin. unfold loc_eq, scope_to_entities; simpl. f_equal.
  apply list_filter_filter_l. by intros r ->.
Qed.

Lemma selected_countries_of_interest : selected_countries ⊆ countries_of_interest.
Proof.
  apply (bool_decide_unpack (selected_countries ⊆ countries_of_interest)).
  vm_compute. exact I.
Qed.

(** Scoping is invisible to a country it keeps: the smoothing cells and the
    chart lines of a requested country are the same on the scoped table as
    on the whole table, also through the completeness filter; this covers
    every country of the waves panels. *)
Theorem scoping_transparent entity_names df country :
  country ∈ entity_names ->
  daily_new_cases (scope_to_entities entity_names df) country
  = daily_new_cases df country
  ∧ waves_panel (scope_to_entities entity_names df) country
    = waves_panel df country
  ∧ (forall column,
       country_line column (scope_to_entities entity_names df) country
       = country_line column df country)
  ∧ (forall subset a b,
       dropna subset df = Ok a ->
       dropna subset (scope_to_entities entity_names df) = Ok b ->
       daily_new_cases b country = daily_new_cases a country)
  ∧ (entity_names = countries_of_interest -> selected_countries ⊆ entity_names).
Proof.
  intros Hin.
  assert (forall d, daily_new_cases (scope_to_entities entity_names d) country
                    = daily_new_cases d country) as Hd.
  { intros d. unfold daily_new_cases. by rewrite loc_eq_scope. }
  split; [apply Hd|]. split; [|split; [|split]].
  - unfold waves_panel. by rewrite loc_eq_scope.
  - intros column. unfold country_line. by rewrite loc_eq_scope.
  - intros subset a b Ha Hb.
    pose proof (dropna_outcome subset df) as Oa. rewrite Ha in Oa.
    pose proof (dropna_outcome subset (scope_to_entities entity_names df)) as Ob.
    rewrite Hb in Ob. destruct Oa as [_ ->], Ob as [_ ->].
    unfold daily_new_cases, loc_eq; simpl.
    rewrite !list_filter_filter.
    match goal with
    | |- context [filter ?P (rows df)] =>
        rewrite (list_filter_iff P
                   (fun r => location r = country ∧ complete subset r))
    end; [done|].
    intros r. split; [tauto|]. intros [-> ?]. auto.
  - intros ->. apply selected_countries_of_interest.
Qed.

Lemma scoping_transparent_witness :
  "Kenya" ∈ countries_of_interest
  ∧ daily_new_cases (scope_to_entities countries_of_interest gap_frame) "Kenya"
    = daily_new_cases gap_frame "Kenya".
Proof.
  assert ("Kenya" ∈ countries_of_interest) as H
    by (unfold countries_of_interest; repeat constructor).
  split; [exact H|].
  exact (proj1 (scoping_transparent countries_of_interest gap_frame "Kenya" H)).
Defined.
